(** * Verification of [src/eval_prm/run_eval_with_vllm.py]

    A shallow embedding of the evaluation script: the metrics aggregator
    [compute_metrics_fn], the generation loop with its checkpoints, the
    grading loop and the sample-count cap.

    Conventions of the embedding:
    - a Python [float] is idealised as an exact rational in lowest terms
      ([Qc]), so that equal numbers are equal terms;
    - a raised exception is a value [Raise e] of the [result] type;
    - the insertion-ordered [defaultdict(int)] is an association list;
    - a loosely typed sample (a [dict] of strings) is a [gmap string string];
    - the collaborator modules ([src.eval_utils.*]) are not part of the
      file under verification: the model, the extractor, the parser and the
      grader are parameters of the script, while the aggregation registry
      and [save_jsonl] are modelled from the specification;
    - where the identity of a Python object matters (the effects of
      [compute_metrics_fn] on its argument), lists and dictionaries are
      objects of a heap, reached through references. *)

From Stdlib Require Import QArith Qcanon.
From stdpp Require Import gmap strings list fin_maps.

(** ** Exceptions *)

Inductive exn : Type :=
  | KeyError (key : string)
  | IndexError
  | ZeroDivisionError
  | Exception (msg : string).

Inductive result (A : Type) : Type :=
  | Ok (a : A)
  | Raise (e : exn).
Arguments Ok {A} a.
Arguments Raise {A} e.

(** The error monad, with stdpp's [x ← m; k] notation. *)
Global Instance result_ret : MRet result := @Ok.
Global Instance result_bind : MBind result := λ A B f m,
  match m with
  | Ok a => f a
  | Raise e => Raise e
  end.
Global Instance result_fmap : FMap result := λ A B f m,
  match m with
  | Ok a => Ok (f a)
  | Raise e => Raise e
  end.

(** [[f(x) for x in l]] where [f] may raise: the first exception wins. *)
Fixpoint for_each {A B} (f : A → result B) (l : list A) : result (list B) :=
  match l with
  | [] => Ok []
  | x :: t => y ← f x ; ys ← for_each f t ; Ok (y :: ys)
  end.

(** ** Data model of the aggregator *)

(** One entry of [sample["generation"]]. *)
Record GenRecord : Type := {
  pred : string;
  step_rewards : option (list Qc);   (* [generation.get("step_rewards", None)] *)
  correct : bool
}.

(** One element of [eval_results]. *)
Record EvalResult : Type := {
  dataset : string;
  generation : list GenRecord
}.

(** The dictionary built for each of the first [k] generations. *)
Record EvalSample : Type := {
  es_dataset : string;
  ans : string;
  scores : option (list Qc);
  es_correct : bool
}.

(** What an aggregation function returns: one decision per sample. *)
Record FinalResult : Type := {
  fr_dataset : string;
  fr_ans : option string;
  fr_correct : bool
}.

(** A row of the returned [metrics] list. *)
Inductive MetricRow : Type :=
  | Metric (m_dataset : string) (total : nat) (m_correct : nat) (accuracy : Qc)
  | Average (average_accuracy : Qc).

(** ** The aggregation registry *)

Definition decision_of (s : EvalSample) : FinalResult :=
  {| fr_dataset := es_dataset s; fr_ans := Some (ans s); fr_correct := es_correct s |}.

(** Modelled from the spec: the aggregation function [pass] of
    [src/eval_utils/vote.py], which is not among the sources.  The decision
    is the first of the [k] records; the spec gives the records a length of
    at least one, so on an empty list the model raises. *)
Definition pass (eval_samples : list EvalSample) : result FinalResult :=
  match eval_samples with
  | [] => Raise IndexError
  | s :: _ => Ok (decision_of s)
  end.

(** Number of records of [l] whose extracted answer is [a]. *)
Definition votes (a : string) (l : list EvalSample) : nat :=
  length (filter (λ s, ans s = a) l).

(** The running winner of the vote: a later record replaces it only when
    its answer has strictly more votes, so among equally large groups the
    earliest-occurring one is kept, and the representative of a group is its
    first record. *)
Definition better (l : list EvalSample) (best s : EvalSample) : EvalSample :=
  if decide (votes (ans best) l < votes (ans s) l) then s else best.

Definition modal (l : list EvalSample) (first : EvalSample)
    (rest : list EvalSample) : EvalSample :=
  foldl (better l) first rest.

(** Modelled from the spec: the aggregation function [majority_vote] of
    [src/eval_utils/vote.py], which is not among the sources.  Predictions
    are grouped by equality of the extracted answer, the modal group wins,
    ties go to the earliest-occurring group, and the decision is correct
    when the group's representative was marked correct. *)
Definition majority_vote (eval_samples : list EvalSample) : result FinalResult :=
  match eval_samples with
  | [] => Raise IndexError
  | s :: t => Ok (decision_of (modal eval_samples s t))
  end.

(** Modelled from the spec: the registry [AGG_FN_MAP] of
    [src/eval_utils/vote.py], with the two policies the spec enumerates. *)
Definition AGG_FN_MAP : gmap string (list EvalSample → result FinalResult) :=
  {[ "pass" := pass; "majority_vote" := majority_vote ]}.

(** [AGG_FN_MAP[agg_method]] *)
Definition agg_fn_of (agg_method : string)
    : result (list EvalSample → result FinalResult) :=
  match AGG_FN_MAP !! agg_method with
  | Some f => Ok f
  | None => Raise (KeyError agg_method)
  end.

(** ** [compute_metrics_fn] *)

(** The slice [l[:k]]: a negative [k] counts from the end. *)
Definition slice_to {A} (k : Z) (l : list A) : list A :=
  if decide (0 ≤ k)%Z then take (Z.to_nat k) l
  else take (length l - Z.to_nat (- k)) l.

Definition eval_sample_of (sample : EvalResult) (g : GenRecord) : EvalSample :=
  {| es_dataset := dataset sample;
     ans := pred g;
     scores := step_rewards g;
     es_correct := correct g |}.

(** Body of the first loop (source lines 21-32). *)
Definition final_result_of (k : Z) (agg_method : string) (sample : EvalResult)
    : result FinalResult :=
  let eval_samples := eval_sample_of sample <$> slice_to k (generation sample) in
  agg_fn ← agg_fn_of agg_method ;
  agg_fn eval_samples.

Definition final_results_of (eval_results : list EvalResult) (k : Z)
    (agg_method : string) : result (list FinalResult) :=
  for_each (final_result_of k agg_method) eval_results.

(** [d[key] += 1] on an insertion-ordered [defaultdict(int)]. *)
Fixpoint dd_incr (key : string) (d : list (string * nat)) : list (string * nat) :=
  match d with
  | [] => [(key, 1)]
  | (key', n) :: rest =>
      if decide (key' = key) then (key', S n) :: rest
      else (key', n) :: dd_incr key rest
  end.

(** [d[key]] on a [defaultdict(int)]: a missing key reads as [0]. *)
Fixpoint dd_get (key : string) (d : list (string * nat)) : nat :=
  match d with
  | [] => 0
  | (key', n) :: rest => if decide (key' = key) then n else dd_get key rest
  end.

(** Body of the second loop (source lines 36-40). *)
Definition tally (acc : list (string * nat) * list (string * nat))
    (r : FinalResult) : list (string * nat) * list (string * nat) :=
  let '(dataset_counts, dataset_correct) := acc in
  (dd_incr (fr_dataset r) dataset_counts,
   if fr_correct r then dd_incr (fr_dataset r) dataset_correct
   else dataset_correct).

(** Python's true division [correct / count] of two integers. *)
Definition true_div (n d : nat) : result Qc :=
  if decide (d = 0) then Raise ZeroDivisionError
  else Ok (Q2Qc (Z.of_nat n # Pos.of_nat d)).

(** Body of the third loop (source lines 43-50). *)
Definition metric_of (dataset_correct : list (string * nat))
    (item : string * nat) : result MetricRow :=
  let '(ds, count) := item in
  let c := dd_get ds dataset_correct in
  acc ← true_div c count ;
  Ok (Metric ds count c acc).

Definition accuracy_of (m : MetricRow) : Qc :=
  match m with
  | Metric _ _ _ a => a
  | Average a => a
  end.

Definition Qc_sum (l : list Qc) : Qc := foldr Qcplus 0%Qc l.

(** [np.mean] of a list of floats.  The sum is the exact sum of the
    rationals: the rounding of the floating-point sum, which depends on the
    order of the rows, is not modelled, and no statement below compares the
    means of two differently ordered lists. *)
Definition np_mean (l : list Qc) : Qc :=
  (Qc_sum l / Q2Qc (inject_Z (Z.of_nat (length l))))%Qc.

(** Source lines 34-54: grouping, per-dataset rows and the average row. *)
Definition metrics_of_results (final_results : list FinalResult)
    : result (list MetricRow) :=
  let '(dataset_counts, dataset_correct) := foldl tally ([], []) final_results in
  metrics ← for_each (metric_of dataset_correct) dataset_counts ;
  let average_accuracy :=
    match metrics with
    | [] => 0%Qc
    | _ => np_mean (accuracy_of <$> metrics)
    end in
  Ok (metrics ++ [Average average_accuracy]).

Definition compute_metrics_fn (eval_results : list EvalResult) (k : Z)
    (agg_method : string) : result (list MetricRow) :=
  final_results ← final_results_of eval_results k agg_method ;
  metrics_of_results final_results.

(** ** The script around the aggregator *)

(** A loaded sample: a dictionary from field names to strings. *)
Abbreviation Sample := (gmap string string).

(** One element of [generations].  The key ["correct"] is absent until the
    grading loop sets it. *)
Record Generation : Type := {
  gen_dataset : string;
  question : string;
  response : string;
  gen_pred : string;
  gt_ans : string;
  gen_correct : option bool
}.

(** What the script prints while it runs. *)
Inductive event : Type :=
  | SkippedMalformed (sample : Sample)
  | GenerationFailed (prompt : string) (e : exn)
  | CheckpointSaved (n : nat)
  | EvaluationFailed (p gt : string) (e : exn).

(** The mutable state of the script: the [generations] list, the files
    under the output directory, and the printed log. *)
Record World : Type := {
  generations : list Generation;
  files : gmap string (list Generation);
  log : list event
}.

Record Args : Type := {
  data_name : string;
  output_dir : string;
  num_test_sample : Z;
  save_outputs : bool
}.

Definition checkpoint_interval : nat := 100.

(** The state in which the generation loop starts in an output directory
    that holds no file yet; [start_world] below is the general case. *)
Definition initial_world : World :=
  {| generations := []; files := ∅; log := [] |}.

(** The state in which the generation loop starts when the output
    directory, which the script reuses, already holds the files [fs]. *)
Definition start_world (fs : gmap string (list Generation)) : World :=
  {| generations := []; files := fs; log := [] |}.

(** [gen["correct"] = b] *)
Definition set_correct (g : Generation) (b : bool) : Generation :=
  {| gen_dataset := gen_dataset g; question := question g;
     response := response g; gen_pred := gen_pred g; gt_ans := gt_ans g;
     gen_correct := Some b |}.

Definition path_join (dir name : string) : string := dir +:+ "/" +:+ name.

(** Modelled from the spec: [save_jsonl] of [src/eval_utils/data.py], which
    is not among the sources.  One record per line, and the file at [path]
    is overwritten wholesale. *)
Definition save_jsonl (records : list Generation) (path : string)
    (fs : gmap string (list Generation)) : gmap string (list Generation) :=
  <[path := records]> fs.

(** Truth value of [sample.get(key)]: a missing key and an empty string
    are both false. *)
Definition truthy (v : option string) : bool :=
  match v with
  | Some s => bool_decide (s ≠ "")
  | None => false
  end.

(** [next((sample.get(k) for k in keys if sample.get(k)), None)] *)
Fixpoint next_truthy (sample : Sample) (keys : list string) : option string :=
  match keys with
  | [] => None
  | k :: rest => if truthy (sample !! k) then sample !! k
                 else next_truthy sample rest
  end.

Definition question_keys : list string := ["question"; "prompt"; "input"; "problem"].

(** Source lines 116-117: the prompt, or [None] when [not prompt]. *)
Definition find_prompt (sample : Sample) : option string :=
  let prompt := next_truthy sample question_keys in
  if truthy prompt then prompt else None.

(** Source lines 76-77. *)
Definition apply_cap (n : Z) (datasets : list Sample) : list Sample :=
  if decide (n ≠ 0%Z) then slice_to n datasets else datasets.

Section Script.

Variable args : Args.

(** The collaborators.  [generate_output] wraps the sampling model, so
    its answer may differ from call to call: it is indexed by the
    position of the sample it is called for. *)
Variable generate_output : nat → string → result string.
Variable extract_and_strip : string → string → result string.
Variable parse_ground_truth : Sample → string → result (list string).
Variable math_equal : string → string → result bool.

Definition checkpoint_path : string :=
  path_join (output_dir args) "checkpoint_generations.jsonl".

(** [sample.get("answer") or parse_ground_truth(sample, data_name)[-1]] *)
Definition ground_truth (sample : Sample) : result string :=
  let parsed :=
    xs ← parse_ground_truth sample (data_name args) ;
    from_option Ok (Raise IndexError) (last xs) in
  match sample !! "answer" with
  | Some a => if truthy (Some a) then Ok a else parsed
  | None => parsed
  end.

Definition with_log (w : World) (e : event) : World :=
  {| generations := generations w; files := files w; log := log w ++ [e] |}.

(** Body of the generation loop (source lines 116-139). *)
Definition generate_step (idx : nat) (sample : Sample) (w : World)
    : result World :=
  match find_prompt sample with
  | None => Ok (with_log w (SkippedMalformed sample))
  | Some prompt =>
      match generate_output idx prompt with
      | Raise e => Ok (with_log w (GenerationFailed prompt e))
      | Ok output_text =>
          p ← extract_and_strip output_text (data_name args) ;
          gt ← ground_truth sample ;
          let generation :=
            {| gen_dataset := data_name args;
               question := prompt;
               response := output_text;
               gen_pred := p;
               gt_ans := gt;
               gen_correct := None |} in
          let gens := generations w ++ [generation] in
          if decide ((idx + 1) `mod` checkpoint_interval = 0) then
            Ok {| generations := gens;
                  files := save_jsonl gens checkpoint_path (files w);
                  log := log w ++ [CheckpointSaved (idx + 1)] |}
          else
            Ok {| generations := gens; files := files w; log := log w |}
      end
  end.

(** [for idx, sample in enumerate(datasets)], started at index [idx]. *)
Fixpoint generate_loop (idx : nat) (datasets : list Sample) (w : World)
    : result World :=
  match datasets with
  | [] => Ok w
  | sample :: rest =>
      w' ← generate_step idx sample w ;
      generate_loop (S idx) rest w'
  end.

(** The sample at position [idx] is kept, not skipped: it has a prompt
    and the model answers it. *)
Definition kept (idx : nat) (sample : Sample) : Prop :=
  ∃ prompt output_text,
    find_prompt sample = Some prompt
    ∧ generate_output idx prompt = Ok output_text.

(** Body of the grading loop (source lines 149-153). *)
Definition grade (g : Generation) : Generation * list event :=
  match math_equal (gen_pred g) (gt_ans g) with
  | Ok b => (set_correct g b, [])
  | Raise e => (set_correct g false, [EvaluationFailed (gen_pred g) (gt_ans g) e])
  end.

(** The grading loop (source lines 148-153): every element of
    [generations] is updated in place. *)
Definition evaluate (w : World) : World :=
  {| generations := fst ∘ grade <$> generations w;
     files := files w;
     log := log w ++ mjoin (snd ∘ grade <$> generations w) |}.

(** Source lines 163-166; [g["correct"]] raises on a missing key. *)
Definition eval_result_of (g : Generation) : result EvalResult :=
  match gen_correct g with
  | Some c =>
      Ok {| dataset := gen_dataset g;
            generation := [ {| pred := gen_pred g; step_rewards := None; correct := c |} ] |}
  | None => Raise (KeyError "correct")
  end.

Definition agg_fn_list : list string := ["pass"; "majority_vote"].

(** The script from the loaded dataset on (source lines 76-175): the
    final state and the metrics of each aggregation method. *)
Definition main (loaded : list Sample)
    : result (World * list (string * list MetricRow)) :=
  let datasets := apply_cap (num_test_sample args) loaded in
  _ ← from_option Ok (Raise IndexError) (head datasets) ;
  w ← generate_loop 0 datasets initial_world ;
  let w :=
    if save_outputs args then
      {| generations := generations w;
         files := save_jsonl (generations w)
                    (path_join (output_dir args) "generations.jsonl") (files w);
         log := log w |}
    else w in
  let w := evaluate w in
  let w :=
    {| generations := generations w;
       files := save_jsonl (generations w)
                  (path_join (output_dir args) "eval_results.jsonl") (files w);
       log := log w |} in
  eval_results ← for_each eval_result_of (generations w) ;
  all_results ← for_each
    (λ agg_method,
       metrics ← compute_metrics_fn eval_results 1 agg_method ;
       Ok (agg_method, metrics))
    agg_fn_list ;
  Ok (w, all_results).

End Script.

(** ** [compute_metrics_fn] on the heap

    The same function with the objects of its argument on a heap.  A
    Python list or dictionary is an object with an identity; a variable, a
    list element and a dictionary value hold a reference to it, and two
    references to one object see each other's writes.  Strings, booleans
    and numbers cannot be written to and stay values.

    The lists that [compute_metrics_fn] builds itself and that no object
    of the caller refers to (the slice [sample["generation"][:k]],
    [eval_samples], [final_results]) are lists of references held as
    values; the dictionaries it builds are new objects of the heap. *)

(** An object that [compute_metrics_fn] can reach. *)
Inductive obj : Type :=
  | FloatList (xs : list Qc)                (* a list of step rewards *)
  | GenDict (p : string) (rewards : option nat) (c : bool)
      (* an entry of [sample["generation"]]: "pred", "step_rewards" when
         the key is present, "correct" *)
  | RefList (items : list nat)              (* a list of objects *)
  | SampleDict (d : string) (gens : nat)    (* "dataset", "generation" *)
  | EvalSampleDict (d a : string) (sc : option nat) (c : bool)
      (* "dataset", "ans", "scores" ([None] is not a reference), "correct" *)
  | DecisionDict (r : FinalResult).         (* a decision of an aggregator *)

Abbreviation heap := (gmap nat obj).

(** A computation that may raise and may read, create and write objects. *)
Definition Py (A : Type) : Type := heap → result A * heap.

Global Instance Py_ret : MRet Py := λ A a h, (Ok a, h).
Global Instance Py_bind : MBind Py := λ A B f m h,
  match m h with
  | (Ok a, h') => f a h'
  | (Raise e, h') => (Raise e, h')
  end.

(** A computation on values only. *)
Definition lift {A} (r : result A) : Py A := λ h, (r, h).

(** Following a reference.  A reference of a Python program always leads
    to an object; a heap that lacks it is not one the program can run on,
    and the computation stops there. *)
Definition get_obj (l : nat) : Py obj := λ h,
  (from_option Ok (Raise (Exception "no such object")) (h !! l), h).

(** Building an object: its reference is one that no object has yet. *)
Definition new_obj (o : obj) : Py nat := λ h,
  (Ok (fresh (dom h)), <[fresh (dom h) := o]> h).

(** Writing to an object in place. *)
Definition set_obj (l : nat) (o : obj) : Py () := λ h, (Ok (), <[l := o]> h).

Fixpoint for_each_py {A B} (f : A → Py B) (l : list A) : Py (list B) :=
  match l with
  | [] => mret []
  | x :: t => y ← f x ; ys ← for_each_py f t ; mret (y :: ys)
  end.

(** The dictionary built for one generation (source lines 23-28):
    ["scores"] is the very object that ["step_rewards"] refers to. *)
Definition eval_sample_py (d : string) (generation : nat) : Py nat :=
  o ← get_obj generation ;
  match o with
  | GenDict p rewards c => new_obj (EvalSampleDict d p rewards c)
  | _ => lift (Raise (KeyError "pred"))
  end.

(** Body of the first loop (source lines 21-32), with the registry
    [AGG_FN_MAP] as a parameter: an aggregation function receives the
    references of the records and returns the reference of its decision. *)
Definition final_result_py (registry : string → result (list nat → Py nat))
    (k : Z) (agg_method : string) (sample : nat) : Py nat :=
  o ← get_obj sample ;
  match o with
  | SampleDict d generations =>
      og ← get_obj generations ;
      match og with
      | RefList gens =>
          eval_samples ← for_each_py (eval_sample_py d) (slice_to k gens) ;
          agg_fn ← lift (registry agg_method) ;
          agg_fn eval_samples
      | _ => lift (Raise (Exception "generation is not a list"))
      end
  | _ => lift (Raise (KeyError "generation"))
  end.

(** [result["dataset"]] and [result["correct"]] of a decision (source
    lines 37-39); the decision may be a dictionary of its own or one of
    the records. *)
Definition decision_py (result : nat) : Py FinalResult :=
  o ← get_obj result ;
  match o with
  | DecisionDict r => mret r
  | EvalSampleDict d a _ c =>
      mret {| fr_dataset := d; fr_ans := Some a; fr_correct := c |}
  | _ => lift (Raise (KeyError "dataset"))
  end.

(** [compute_metrics_fn] (source lines 19-54): the first loop collects the
    references of the decisions, the second reads them, and the rest works
    on the values read. *)
Definition compute_metrics_fn_py
    (registry : string → result (list nat → Py nat))
    (k : Z) (agg_method : string) (eval_results : nat) : Py (list MetricRow) :=
  o ← get_obj eval_results ;
  match o with
  | RefList samples =>
      final_results ←
        for_each_py (final_result_py registry k agg_method) samples ;
      decisions ← for_each_py decision_py final_results ;
      lift (metrics_of_results decisions)
  | _ => lift (Raise (Exception "eval_results is not a list"))
  end.

(** [record["scores"]], followed to the list it refers to. *)
Definition read_scores (sc : option nat) : Py (option (list Qc)) :=
  match sc with
  | None => mret None
  | Some l =>
      o ← get_obj l ;
      match o with
      | FloatList xs => mret (Some xs)
      | _ => lift (Raise (Exception "scores is not a list"))
      end
  end.

(** The fields of one record of [eval_samples]. *)
Definition read_eval_sample (l : nat) : Py EvalSample :=
  o ← get_obj l ;
  match o with
  | EvalSampleDict d a sc c =>
      xs ← read_scores sc ;
      mret {| es_dataset := d; ans := a; scores := xs; es_correct := c |}
  | _ => lift (Raise (KeyError "ans"))
  end.

(** An aggregation function that reads its records, decides on what it
    read and returns its decision as a new dictionary. *)
Definition on_records (f : list EvalSample → result FinalResult)
    (eval_samples : list nat) : Py nat :=
  records ← for_each_py read_eval_sample eval_samples ;
  decision ← lift (f records) ;
  new_obj (DecisionDict decision).

(** Modelled from the spec: the registry [AGG_FN_MAP] of
    [src/eval_utils/vote.py], which is not among the sources, on the heap.
    The spec describes its functions by the decision they return for the
    records they are given and mentions no write to a record, so each is
    the function of [AGG_FN_MAP] reading the records through their
    references. *)
Definition AGG_FN_MAP_py (agg_method : string)
    : result (list nat → Py nat) :=
  on_records <$> agg_fn_of agg_method.

(** An aggregation function that is not in the registry, for comparison:
    it decides for the first record and, on its way, empties the list of
    scores of that record in place. *)
Definition scrubbing (eval_samples : list nat) : Py nat :=
  match eval_samples with
  | [] => lift (Raise IndexError)
  | l :: _ =>
      o ← get_obj l ;
      match o with
      | EvalSampleDict d a sc c =>
          _ ← from_option (λ scores, set_obj scores (FloatList [])) (mret ()) sc ;
          new_obj (DecisionDict
                     {| fr_dataset := d; fr_ans := Some a; fr_correct := c |})
      | _ => lift (Raise (KeyError "ans"))
      end
  end.

(** *** What a reference stands for

    The value of the object behind a reference, when the objects it leads
    to have the shape the function expects. *)

Definition view_scores (h : heap) (sc : option nat)
    : option (option (list Qc)) :=
  match sc with
  | None => Some None
  | Some l =>
      match h !! l with
      | Some (FloatList xs) => Some (Some xs)
      | _ => None
      end
  end.

Definition view_generation (h : heap) (l : nat) : option GenRecord :=
  match h !! l with
  | Some (GenDict p rewards c) =>
      xs ← view_scores h rewards ;
      Some {| pred := p; step_rewards := xs; correct := c |}
  | _ => None
  end.

Definition view_sample (h : heap) (l : nat) : option EvalResult :=
  match h !! l with
  | Some (SampleDict d generations) =>
      match h !! generations with
      | Some (RefList gens) =>
          gs ← mapM (view_generation h) gens ;
          Some {| dataset := d; generation := gs |}
      | _ => None
      end
  | _ => None
  end.

(** The value of the caller's [eval_results]. *)
Definition view_eval_results (h : heap) (l : nat)
    : option (list EvalResult) :=
  match h !! l with
  | Some (RefList samples) => mapM (view_sample h) samples
  | _ => None
  end.

Definition view_eval_sample (h : heap) (l : nat) : option EvalSample :=
  match h !! l with
  | Some (EvalSampleDict d a sc c) =>
      xs ← view_scores h sc ;
      Some {| es_dataset := d; ans := a; scores := xs; es_correct := c |}
  | _ => None
  end.

(** A computation that leaves every object it found as it was: the heap
    only grows. *)
Definition frame {A} (m : Py A) : Prop := ∀ h, h ⊆ (m h).2.

(** ** Example inputs *)

(** A sample with a single generation, as the script builds them. *)
Definition single (ds p : string) (c : bool) : EvalResult :=
  {| dataset := ds;
     generation := [ {| pred := p; step_rewards := None; correct := c |} ] |}.

(** Dataset ["A"] with one sample, answered correctly, and dataset ["B"]
    with three samples, all answered wrongly. *)
Definition two_datasets : list EvalResult :=
  [ single "B" "7" false; single "A" "1" true;
    single "B" "8" false; single "B" "9" false ].

(** Three samples of ["college_math"] with flags [true; false; true]. *)
Definition college_math_3 (p1 p2 p3 : string) : list EvalResult :=
  [ single "college_math" p1 true;
    single "college_math" p2 false;
    single "college_math" p3 true ].

(** A record of the vote, with answer [a] and correctness [c]. *)
Definition vote (a : string) (c : bool) : EvalSample :=
  {| es_dataset := "college_math"; ans := a; scores := None; es_correct := c |}.

(** A grader that fails on the answer ["?"], and a state with two
    generated records, the first of which has that answer. *)
Definition picky_math_equal (p gt : string) : result bool :=
  if decide (p = "?") then Raise (Exception "cannot parse")
  else Ok (bool_decide (p = gt)).

Definition generated (q p gt : string) : Generation :=
  {| gen_dataset := "college_math"; question := q; response := p;
     gen_pred := p; gt_ans := gt; gen_correct := None |}.

Definition two_generated : World :=
  {| generations := [generated "1+1" "?" "2"; generated "1+2" "3" "3"];
     files := ∅; log := [] |}.

Definition example_args : Args :=
  {| data_name := "college_math"; output_dir := "out";
     num_test_sample := 0; save_outputs := false |}.

(** A model that repeats its prompt and fails on the prompt ["crash"]. *)
Definition echo_model (idx : nat) (prompt : string) : result string :=
  if decide (prompt = "crash") then Raise (Exception "out of memory")
  else Ok prompt.

Definition keep_text (text data_name : string) : result string := Ok text.

Definition no_parse (sample : Sample) (data_name : string) : result (list string) :=
  Ok ["0"].

Definition asked (q : string) : Sample := {[ "question" := q; "answer" := "2" ]}.

Definition no_question : Sample := {[ "text" := "1+1" ]}.

Definition example_loop : nat → list Sample → World → result World :=
  generate_loop example_args echo_model keep_text no_parse.

(** An output directory left by an earlier run: a checkpoint of three
    records. *)
Definition stale_files : gmap string (list Generation) :=
  {[ checkpoint_path example_args :=
       replicate 3
         {| gen_dataset := "college_math"; question := "old"; response := "old";
            gen_pred := "old"; gt_ans := "2"; gen_correct := None |} ]}.

(** Two samples on the heap, at reference [0]: one of dataset "A" whose
    generation carries a list of step rewards, one of dataset "B" whose
    generation has none. *)
Definition example_heap : heap :=
  {[ 0 := RefList [1; 5];
     1 := SampleDict "A" 2; 2 := RefList [3];
     3 := GenDict "1" (Some 4) true; 4 := FloatList [1%Qc];
     5 := SampleDict "B" 6; 6 := RefList [7];
     7 := GenDict "2" None false ]}.

Definition example_eval_results : list EvalResult :=
  [ {| dataset := "A";
       generation := [ {| pred := "1"; step_rewards := Some [1%Qc];
                          correct := true |} ] |};
    {| dataset := "B";
       generation := [ {| pred := "2"; step_rewards := None;
                          correct := false |} ] |} ].

(** The same samples once the first list of step rewards was emptied. *)
Definition scrubbed_eval_results : list EvalResult :=
  [ {| dataset := "A";
       generation := [ {| pred := "1"; step_rewards := Some [];
                          correct := true |} ] |};
    {| dataset := "B";
       generation := [ {| pred := "2"; step_rewards := None;
                          correct := false |} ] |} ].

(** ** Reference notions used in the statements *)

(** The distinct elements of a list, in order of first occurrence. *)
Fixpoint first_seen (l : list string) : list string :=
  match l with
  | [] => []
  | x :: t => x :: filter (λ y, y ≠ x) (first_seen t)
  end.

(** Number of decisions for dataset [d], and number of correct ones. *)
Definition count_total (d : string) (rs : list FinalResult) : nat :=
  length (filter (λ r, fr_dataset r = d) rs).

Definition count_correct (d : string) (rs : list FinalResult) : nat :=
  length (filter (λ r, fr_dataset r = d ∧ fr_correct r = true) rs).

(** The row a dataset is expected to get. *)
Definition expected_row (rs : list FinalResult) (d : string) : MetricRow :=
  Metric d (count_total d rs) (count_correct d rs)
    (Q2Qc (Z.of_nat (count_correct d rs) # Pos.of_nat (count_total d rs))).

(** The unweighted arithmetic mean, [0] on the empty list. *)
Definition arithmetic_mean (l : list Qc) : Qc :=
  match l with
  | [] => 0%Qc
  | _ => (Qc_sum l / Q2Qc (inject_Z (Z.of_nat (length l))))%Qc
  end.

Definition is_metric (m : MetricRow) : Prop :=
  match m with
  | Metric _ _ _ _ => True
  | Average _ => False
  end.

Definition dataset_of (m : MetricRow) : option string :=
  match m with
  | Metric d _ _ _ => Some d
  | Average _ => None
  end.

(** One step of collecting the keys of a dictionary in insertion order. *)
Definition add_key (acc : list string) (key : string) : list string :=
  if decide (key ∈ acc) then acc else acc ++ [key].

(** What C2 says of a per-dataset row, given the decisions [rs]. *)
Definition row_ok (rs : list FinalResult) (m : MetricRow) : Prop :=
  match m with
  | Metric d t c a =>
      0 < t ∧ c ≤ t
      ∧ t = count_total d rs ∧ c = count_correct d rs
      ∧ a = Q2Qc (Z.of_nat c # Pos.of_nat t)
  | Average _ => False
  end.

(** [a] has at least as many votes in [l] as every answer given in [l]. *)
Definition is_modal (l : list EvalSample) (a : string) : Prop :=
  Forall (λ x, votes (ans x) l ≤ votes a l) l.

(** There is no tie for the first place. *)
Definition unique_mode (l : list EvalSample) : Prop :=
  Forall (λ s1, Forall (λ s2,
    is_modal l (ans s1) → is_modal l (ans s2) → ans s1 = ans s2) l) l.

(** Records with the same answer agree on dataset and correctness, as they
    do when they are graded against one ground truth. *)
Definition graded_by_answer (l : list EvalSample) : Prop :=
  Forall (λ s1, Forall (λ s2,
    ans s1 = ans s2 →
    es_dataset s1 = es_dataset s2 ∧ es_correct s1 = es_correct s2) l) l.

(** ** The generation backend (source lines 93-107) *)

(** The keyword arguments handed to [model.generate]. *)
Record GenKwargs : Type := {
  max_new_tokens : nat;
  do_sample : bool;
  kw_temperature : option Qc;
  kw_top_p : option Qc
}.

(** Source lines 96-104: sampling parameters are passed only when
    [temperature > 0.0]. *)
Definition gen_kwargs (temperature top_p : Qc) : GenKwargs :=
  let sample := bool_decide (0 < temperature)%Qc in
  {| max_new_tokens := 512;
     do_sample := sample;
     kw_temperature := if sample then Some temperature else None;
     kw_top_p := if sample then Some top_p else None |}.

Section Backend.

(** The tokenizer and the model are collaborators; [model_generate] is
    indexed by the call, as the sampling makes it depend on more than its
    arguments. *)
Variable Tokens : Type.
Variable tokenizer : string → result Tokens.
Variable model_generate : nat → Tokens → GenKwargs → result (list Tokens).
Variable decode : Tokens → result string.
Variable temperature top_p : Qc.

(** [generate_output(prompt)], for the call of index [idx]. *)
Definition generate_output_of (idx : nat) (prompt : string) : result string :=
  inputs ← tokenizer prompt ;
  outputs ← model_generate idx inputs (gen_kwargs temperature top_p) ;
  first_output ← from_option Ok (Raise IndexError) (head outputs) ;
  decode first_output.

End Backend.

(** ** The report rows (source lines 168-175) *)

(** A value of the report dictionary. *)
Inductive cell : Type :=
  | IntCell (n : Z)
  | FloatCell (q : Qc)
  | StrCell (s : string).

(** [d[key] = v] on an insertion-ordered dictionary. *)
Fixpoint od_set (key : string) (v : cell) (d : list (string * cell))
    : list (string * cell) :=
  match d with
  | [] => [(key, v)]
  | (key', v') :: rest =>
      if decide (key' = key) then (key', v) :: rest
      else (key', v') :: od_set key v rest
  end.

(** [d.get(key)] *)
Fixpoint od_get (key : string) (d : list (string * cell)) : option cell :=
  match d with
  | [] => None
  | (key', v) :: rest => if decide (key' = key) then Some v else od_get key rest
  end.

(** [d.update(items)], the items taken in order. *)
Definition od_update (d items : list (string * cell)) : list (string * cell) :=
  foldl (λ acc item, od_set item.1 item.2 acc) d items.

(** A row of [metrics] as the dictionary it is in the source. *)
Definition row_dict (m : MetricRow) : list (string * cell) :=
  match m with
  | Metric d t c a =>
      [ ("dataset", StrCell d); ("total", IntCell (Z.of_nat t));
        ("correct", IntCell (Z.of_nat c)); ("accuracy", FloatCell a) ]
  | Average a => [ ("Average", FloatCell a) ]
  end.

(** [(metric["dataset"], metric["accuracy"])]; the average row has neither
    key. *)
Definition report_entry (m : MetricRow) : result (string * cell) :=
  match m with
  | Metric d _ _ a => Ok (d, FloatCell a)
  | Average _ => Raise (KeyError "dataset")
  end.

(** Source lines 172-174: the row of the report for one aggregation
    method. *)
Definition report_of (metrics : list MetricRow) : result (list (string * cell)) :=
  entries ← for_each report_entry (slice_to (-1) metrics) ;
  last_row ← from_option Ok (Raise IndexError) (last metrics) ;
  let result := [ ("k", IntCell 1) ] in
  let result := od_update result (od_update [] entries) in
  Ok (od_update result (row_dict last_row)).

(** Source lines 168-175: [all_results], one list of a single row per
    method. *)
Definition all_results_of (eval_results : list EvalResult)
    : result (list (string * list (list (string * cell)))) :=
  for_each
    (λ agg_method,
       metrics ← compute_metrics_fn eval_results 1 agg_method ;
       result ← report_of metrics ;
       Ok (agg_method, [result]))
    ["pass"; "majority_vote"].

(** ** Projections of a metric row *)

Definition total_of (m : MetricRow) : nat :=
  match m with
  | Metric _ t _ _ => t
  | Average _ => 0
  end.

Definition correct_of (m : MetricRow) : nat :=
  match m with
  | Metric _ _ c _ => c
  | Average _ => 0
  end.

(** ** Notions for the script's properties *)

(** The field [key] of [sample] is missing or empty. *)
Definition blank (sample : Sample) (key : string) : Prop :=
  sample !! key = None ∨ sample !! key = Some "".

(** The computation raised. *)
Definition raised {A} (r : result A) : bool :=
  match r with
  | Ok _ => false
  | Raise _ => true
  end.

(** The record has its ["correct"] key. *)
Definition flagged (g : Generation) : Prop := is_Some (gen_correct g).

(** Where a record of the generation list comes from: the sample at
    position [idx + i] of the run. *)
Definition made_from (args : Args)
    (generate_output : nat → string → result string)
    (extract_and_strip : string → string → result string)
    (parse_ground_truth : Sample → string → result (list string))
    (idx : nat) (ds : list Sample) (g : Generation) : Prop :=
  ∃ i s,
    ds !! i = Some s
    ∧ find_prompt s = Some (question g)
    ∧ generate_output (idx + i) (question g) = Ok (response g)
    ∧ extract_and_strip (response g) (data_name args) = Ok (gen_pred g)
    ∧ ground_truth args parse_ground_truth s = Ok (gt_ans g)
    ∧ gen_dataset g = data_name args
    ∧ gen_correct g = None.

(** An extractor that finds no answer in the text ["garbage"]. *)
Definition strict_extract (text data_name : string) : result string :=
  if decide (text = "garbage") then Raise (Exception "no answer found")
  else Ok text.

(** The record that the example collaborators make of the question [q]. *)
Definition echoed (q : string) : Generation :=
  {| gen_dataset := "college_math"; question := q; response := q;
     gen_pred := q; gt_ans := "2"; gen_correct := None |}.

(** The metrics the script reports for [n] graded records of the dataset
    [d], [c] of them correct. *)
Definition one_dataset_metrics (d : string) (n c : nat) : list MetricRow :=
  match n with
  | 0 => [Average 0%Qc]
  | _ => [ Metric d n c (Q2Qc (Z.of_nat c # Pos.of_nat n));
           Average (Q2Qc (Z.of_nat c # Pos.of_nat n)) ]
  end.

(** The script after the generation loop (source lines 141-175), as in
    [main]. *)
Definition script_tail (args : Args) (math_equal : string → string → result bool)
    (w : World) : result (World * list (string * list MetricRow)) :=
  let w :=
    if save_outputs args then
      {| generations := generations w;
         files := save_jsonl (generations w)
                    (path_join (output_dir args) "generations.jsonl") (files w);
         log := log w |}
    else w in
  let w := evaluate math_equal w in
  let w :=
    {| generations := generations w;
       files := save_jsonl (generations w)
                  (path_join (output_dir args) "eval_results.jsonl") (files w);
       log := log w |} in
  eval_results ← for_each eval_result_of (generations w) ;
  all_results ← for_each
    (λ agg_method,
       metrics ← compute_metrics_fn eval_results 1 agg_method ;
       Ok (agg_method, metrics))
    agg_fn_list ;
  Ok (w, all_results).

(** Arguments of an example run with the cap [n], saving the outputs. *)
Definition capped_args (n : Z) : Args :=
  {| data_name := "college_math"; output_dir := "out";
     num_test_sample := n; save_outputs := true |}.

(** The example script: the echo model and the picky grader. *)
Definition example_main (n : Z) (loaded : list Sample)
    : result (World * list (string * list MetricRow)) :=
  main (capped_args n) echo_model keep_text no_parse picky_math_equal loaded.

(** The value of a computation that returned, or [d]. *)
Definition value_or {A} (d : A) (r : result A) : A :=
  match r with
  | Ok a => a
  | Raise _ => d
  end.

(** A model whose batch of outputs is empty. *)
Definition empty_batch (idx : nat) (inputs : string) (kw : GenKwargs)
    : result (list string) := Ok [].

(** * Properties *)

#[local] Arguments Nat.modulo : simpl never.
#[local] Arguments Nat.div : simpl never.

(** ** The error monad *)

Lemma for_each_ok {A B} (f : A → result B) (g : A → B) (l : list A) :
  Forall (λ x, f x = Ok (g x)) l → for_each f l = Ok (g <$> l).
Proof.
  induction 1 as [|x t Hx _ IH]; simpl; [done|].
  by rewrite Hx, IH.
Qed.

Lemma for_each_length {A B} (f : A → result B) l ys :
  for_each f l = Ok ys → length ys = length l.
Proof.
  revert ys. induction l as [|x t IH]; simpl; intros ys H.
  - by inversion H.
  - destruct (f x); simpl in H; [|done].
    destruct (for_each f t) eqn:E; simpl in H; [|done].
    inversion H; subst. simpl. f_equal. by apply IH.
Qed.

Lemma for_each_lookup {A B} (f : A → result B) l ys i x :
  for_each f l = Ok ys → l !! i = Some x → ∃ y, ys !! i = Some y ∧ f x = Ok y.
Proof.
  revert ys i. induction l as [|a t IH]; simpl; intros ys i H Hi; [done|].
  destruct (f a) eqn:Ea; simpl in H; [|done].
  destruct (for_each f t) eqn:E; simpl in H; [|done].
  inversion H; subst. destruct i as [|i]; simpl in *.
  - inversion Hi; subst. eauto.
  - eapply IH; eauto.
Qed.

(** ** The insertion-ordered [defaultdict(int)] *)

Lemma dd_get_incr key key' d :
  dd_get key' (dd_incr key d)
  = if decide (key = key') then S (dd_get key' d) else dd_get key' d.
Proof.
  induction d as [|[k n] rest IH]; simpl.
  - repeat case_decide; congruence.
  - repeat (case_decide; simpl); subst; rewrite ?IH;
      repeat case_decide; congruence.
Qed.

Lemma dd_keys_incr key d :
  (dd_incr key d).*1 = if decide (key ∈ d.*1) then d.*1 else d.*1 ++ [key].
Proof.
  induction d as [|[k n] rest IH]; csimpl.
  - destruct (decide (key ∈ [])) as [H|H]; [by apply elem_of_nil in H|done].
  - destruct (decide (k = key)) as [->|Hk]; csimpl.
    + rewrite decide_True; [done|left].
    + rewrite IH. destruct (decide (key ∈ rest.*1)) as [H|H].
      * rewrite decide_True; [done|by right].
      * rewrite decide_False; [done|]. rewrite elem_of_cons. intros [?|?]; congruence.
Qed.

(** A dictionary is determined by its keys and its reads. *)
Lemma dd_canonical d :
  NoDup d.*1 → d = (λ key, (key, dd_get key d)) <$> d.*1.
Proof.
  induction d as [|[k n] rest IH]; csimpl; intros Hnd; [done|].
  apply NoDup_cons in Hnd as [Hk Hnd].
  case_decide; [|done]. f_equal.
  rewrite IH at 1 by done. apply list_fmap_ext.
  intros i x Hx. case_decide; [|done]. subst.
  exfalso. apply Hk. by eapply list_elem_of_lookup_2.
Qed.

Lemma first_seen_foldl keys acc :
  foldl add_key acc keys = acc ++ filter (λ y, y ∉ acc) (first_seen keys).
Proof.
  revert acc. induction keys as [|x t IH]; intros acc; simpl.
  - by rewrite app_nil_r.
  - rewrite IH. unfold add_key. rewrite filter_cons.
    rewrite list_filter_filter. case_decide as Hx.
    + rewrite decide_False by tauto. f_equal.
      apply list_filter_iff. intros y. split; [|tauto].
      intros Hy. split; [done|]. intros ->. done.
    + rewrite decide_True by done. rewrite <- app_assoc. simpl. do 2 f_equal.
      apply list_filter_iff. intros y.
      rewrite elem_of_app, list_elem_of_singleton. tauto.
Qed.

Lemma NoDup_first_seen l : NoDup (first_seen l).
Proof.
  induction l as [|x t IH]; simpl; [constructor|].
  apply NoDup_cons. split.
  - rewrite list_elem_of_filter. tauto.
  - by apply NoDup_filter.
Qed.

Lemma elem_of_first_seen l x : x ∈ first_seen l ↔ x ∈ l.
Proof.
  induction l as [|y t IH]; simpl; [done|].
  rewrite !elem_of_cons, list_elem_of_filter, IH.
  destruct (decide (x = y)); tauto.
Qed.

Lemma first_seen_foldl_nil keys : foldl add_key [] keys = first_seen keys.
Proof.
  rewrite first_seen_foldl. simpl.
  induction (first_seen keys) as [|x t IH]; [done|].
  rewrite filter_cons, decide_True by apply not_elem_of_nil. by f_equal.
Qed.

(** ** The grouping loop *)

Lemma count_total_cons d r rs :
  count_total d (r :: rs)
  = if decide (fr_dataset r = d) then S (count_total d rs) else count_total d rs.
Proof. unfold count_total. rewrite filter_cons. by case_decide. Qed.

Lemma count_correct_cons d r rs :
  count_correct d (r :: rs)
  = if decide (fr_dataset r = d ∧ fr_correct r = true)
    then S (count_correct d rs) else count_correct d rs.
Proof. unfold count_correct. rewrite filter_cons. by case_decide. Qed.

Lemma count_correct_le d rs : count_correct d rs ≤ count_total d rs.
Proof.
  induction rs as [|r rs IH]; [done|].
  rewrite count_total_cons, count_correct_cons.
  repeat case_decide; try lia. tauto.
Qed.

Lemma count_total_pos d rs : d ∈ fr_dataset <$> rs → 0 < count_total d rs.
Proof.
  induction rs as [|r rs IH]; csimpl; intros H.
  - by apply elem_of_nil in H.
  - rewrite count_total_cons. apply elem_of_cons in H as [->|H].
    + rewrite decide_True by done. lia.
    + case_decide; [lia|auto].
Qed.

Lemma tally_spec rs counts corrects :
  (foldl tally (counts, corrects) rs).1.*1
    = foldl add_key counts.*1 (fr_dataset <$> rs)
  ∧ (∀ d, dd_get d (foldl tally (counts, corrects) rs).1
          = dd_get d counts + count_total d rs)
  ∧ (∀ d, dd_get d (foldl tally (counts, corrects) rs).2
          = dd_get d corrects + count_correct d rs).
Proof.
  revert counts corrects.
  induction rs as [|r rs IH]; intros counts corrects; csimpl.
  - split_and!; [done| |]; intros; unfold count_total, count_correct;
      rewrite filter_nil; simpl; lia.
  - destruct (IH (dd_incr (fr_dataset r) counts)
                 (if fr_correct r then dd_incr (fr_dataset r) corrects
                  else corrects)) as (Hk & Hc & Hk').
    split_and!.
    + rewrite Hk, dd_keys_incr. done.
    + intros d. rewrite Hc, dd_get_incr, count_total_cons.
      repeat case_decide; lia.
    + intros d. rewrite Hk', count_correct_cons.
      destruct (fr_correct r); rewrite ?dd_get_incr;
        repeat case_decide; try lia; intuition congruence.
Qed.

Lemma tally_counts rs :
  (foldl tally ([], []) rs).1
  = (λ d, (d, count_total d rs)) <$> first_seen (fr_dataset <$> rs).
Proof.
  destruct (tally_spec rs [] []) as (Hk & Hc & _).
  simpl in Hk. rewrite first_seen_foldl_nil in Hk.
  rewrite (dd_canonical (foldl tally ([], []) rs).1).
  - rewrite Hk. apply list_fmap_ext. intros i d _. by rewrite Hc.
  - rewrite Hk. apply NoDup_first_seen.
Qed.

Lemma tally_corrects rs d :
  dd_get d (foldl tally ([], []) rs).2 = count_correct d rs.
Proof. destruct (tally_spec rs [] []) as (_ & _ & Hk). by rewrite Hk. Qed.

Lemma true_div_pos n d :
  0 < d → true_div n d = Ok (Q2Qc (Z.of_nat n # Pos.of_nat d)).
Proof. intros H. unfold true_div. rewrite decide_False by lia. done. Qed.

(** The second half of [compute_metrics_fn] never raises; it returns one
    row per dataset, in order of first occurrence, followed by the mean. *)
Lemma metrics_of_results_spec rs :
  metrics_of_results rs
  = Ok ((expected_row rs <$> first_seen (fr_dataset <$> rs))
        ++ [Average (arithmetic_mean
              (accuracy_of <$> (expected_row rs <$> first_seen (fr_dataset <$> rs))))]).
Proof.
  unfold metrics_of_results.
  destruct (foldl tally ([], []) rs) as [counts corrects] eqn:E.
  assert (Hc : counts = (foldl tally ([], []) rs).1) by (by rewrite E).
  assert (Hk : corrects = (foldl tally ([], []) rs).2) by (by rewrite E).
  rewrite tally_counts in Hc. subst counts.
  rewrite (for_each_ok _ (λ item, expected_row rs item.1)).
  - rewrite <- list_fmap_compose. simpl.
    change ((λ item : string * nat, expected_row rs item.1)
            ∘ (λ d, (d, count_total d rs))) with (expected_row rs).
    by destruct (expected_row rs <$> first_seen (fr_dataset <$> rs)).
  - apply Forall_fmap, Forall_forall. intros d Hd. simpl.
    rewrite Hk, tally_corrects.
    rewrite true_div_pos; [done|].
    apply count_total_pos. by apply elem_of_first_seen.
Qed.

(** ** The aggregation registry *)

Lemma agg_fn_of_pass : agg_fn_of "pass" = Ok pass.
Proof. reflexivity. Qed.

Lemma agg_fn_of_majority_vote : agg_fn_of "majority_vote" = Ok majority_vote.
Proof. reflexivity. Qed.

Lemma agg_fn_of_inv agg_method f :
  agg_fn_of agg_method = Ok f →
  (agg_method = "pass" ∧ f = pass)
  ∨ (agg_method = "majority_vote" ∧ f = majority_vote).
Proof.
  unfold agg_fn_of, AGG_FN_MAP. intros H.
  destruct (decide (agg_method = "pass")) as [->|Hp].
  { left. rewrite lookup_insert_eq in H. by inversion H. }
  rewrite lookup_insert_ne in H by done.
  destruct (decide (agg_method = "majority_vote")) as [->|Hm].
  { right. rewrite lookup_singleton_eq in H. by inversion H. }
  rewrite lookup_singleton_ne in H by done. done.
Qed.

Lemma better_cases l best s : better l best s = best ∨ better l best s = s.
Proof. unfold better. case_decide; auto. Qed.

Lemma modal_elem_of l s t : modal l s t ∈ s :: t.
Proof.
  unfold modal. revert s. induction t as [|x t IH]; intros s; simpl.
  - left.
  - specialize (IH (better l s x)). apply elem_of_cons in IH as [IH|IH].
    + rewrite IH. destruct (better_cases l s x) as [->| ->].
      * left.
      * right. left.
    + right. by right.
Qed.

(** Both policies answer with the dataset of the records they are given. *)
Lemma agg_fn_dataset agg_method f sample gs r :
  agg_fn_of agg_method = Ok f →
  f (eval_sample_of sample <$> gs) = Ok r →
  fr_dataset r = dataset sample.
Proof.
  intros Hf Hr. apply agg_fn_of_inv in Hf as [[_ ->]|[_ ->]].
  - destruct gs as [|g gs]; csimpl in *; [done|]. by inversion Hr.
  - destruct gs as [|g gs]; csimpl in *; [done|]. inversion Hr; subst. simpl.
    pose proof (modal_elem_of
      (eval_sample_of sample g :: (eval_sample_of sample <$> gs))
      (eval_sample_of sample g) (eval_sample_of sample <$> gs)) as Hin.
    change (eval_sample_of sample g :: (eval_sample_of sample <$> gs))
      with (eval_sample_of sample <$> g :: gs) in Hin at 2.
    apply list_elem_of_fmap in Hin as (g' & -> & _). done.
Qed.

Lemma final_result_of_dataset k agg_method sample r :
  final_result_of k agg_method sample = Ok r → fr_dataset r = dataset sample.
Proof.
  unfold final_result_of. intros H.
  destruct (agg_fn_of agg_method) as [f|] eqn:Hf; simpl in H; [|done].
  by eapply agg_fn_dataset.
Qed.

Lemma final_results_of_datasets er k agg_method rs :
  final_results_of er k agg_method = Ok rs →
  fr_dataset <$> rs = dataset <$> er.
Proof.
  unfold final_results_of. revert rs.
  induction er as [|s er IH]; simpl; intros rs H.
  - by inversion H.
  - destruct (final_result_of k agg_method s) as [r|] eqn:Hr; simpl in H; [|done].
    destruct (for_each (final_result_of k agg_method) er) as [rs'|];
      simpl in H; [|done].
    inversion H; subst. csimpl. f_equal.
    + by eapply final_result_of_dataset.
    + by apply IH.
Qed.

(** A valid method and at least one record per sample are enough for the
    first loop to return. *)
Lemma final_results_of_returns er k agg_method :
  agg_method = "pass" ∨ agg_method = "majority_vote" →
  Forall (λ s, slice_to k (generation s) ≠ []) er →
  ∃ rs, final_results_of er k agg_method = Ok rs.
Proof.
  intros Hm. unfold final_results_of.
  induction 1 as [|s er Hs _ [rs IH]]; simpl; [by eexists|].
  rewrite IH.
  assert (∃ r, final_result_of k agg_method s = Ok r) as [r ->].
  { unfold final_result_of.
    destruct (slice_to k (generation s)) as [|g gs]; [done|].
    destruct Hm as [-> | ->]; csimpl; by eexists. }
  simpl. by eexists.
Qed.

Lemma compute_metrics_fn_unfold er k agg_method rs :
  final_results_of er k agg_method = Ok rs →
  compute_metrics_fn er k agg_method = metrics_of_results rs.
Proof. unfold compute_metrics_fn. by intros ->. Qed.

Lemma compute_metrics_fn_inv er k agg_method out :
  compute_metrics_fn er k agg_method = Ok out →
  ∃ rs, final_results_of er k agg_method = Ok rs ∧ metrics_of_results rs = Ok out.
Proof.
  unfold compute_metrics_fn. intros H.
  destruct (final_results_of er k agg_method) as [rs|]; [|done]. by exists rs.
Qed.

Lemma expected_rows_metric rs (ds : list string) : Forall is_metric (expected_row rs <$> ds).
Proof. apply Forall_fmap, Forall_forall. by intros. Qed.

Lemma expected_rows_dataset rs (ds : list string) :
  dataset_of <$> (expected_row rs <$> ds) = Some <$> ds.
Proof. rewrite <- list_fmap_compose. by apply list_fmap_ext. Qed.

(** ** Claims about [compute_metrics_fn] *)

(** C1. Whenever [compute_metrics_fn] returns, its output is a list of
    per-dataset rows, one per dataset name, followed by an [Average] entry
    that is the unweighted arithmetic mean of the rows' accuracies: their
    sum divided by their number, whatever the sample counts.  With no
    per-dataset row the average is [0]. *)
Theorem average_is_unweighted_mean er k agg_method out :
  compute_metrics_fn er k agg_method = Ok out →
  ∃ rows avg,
    out = rows ++ [Average avg]
    ∧ Forall is_metric rows
    ∧ NoDup (dataset_of <$> rows)
    ∧ (rows = [] → avg = 0%Qc)
    ∧ (rows ≠ [] →
       avg = (Qc_sum (accuracy_of <$> rows)
              / Q2Qc (inject_Z (Z.of_nat (length rows))))%Qc).
Proof.
  intros H. apply compute_metrics_fn_inv in H as (rs & _ & H).
  rewrite metrics_of_results_spec in H. inversion H; subst; clear H.
  eexists _, _. split_and!; [done| | | |].
  - apply expected_rows_metric.
  - rewrite expected_rows_dataset.
    apply (NoDup_fmap_2 _), NoDup_first_seen.
  - by intros ->.
  - intros Hne.
    destruct (expected_row rs <$> first_seen (fr_dataset <$> rs)) as [|m l];
      [done|].
    csimpl. unfold arithmetic_mean. simpl length. by rewrite length_fmap.
Qed.

Lemma average_is_unweighted_mean_witness :
  compute_metrics_fn two_datasets 1 "pass"
  = Ok [ Metric "B" 3 0 (Q2Qc (0 # 3)); Metric "A" 1 1 (Q2Qc (1 # 1));
         Average (arithmetic_mean [Q2Qc (0 # 3); Q2Qc (1 # 1)]) ]
  ∧ ∃ rows avg,
      [ Metric "B" 3 0 (Q2Qc (0 # 3)); Metric "A" 1 1 (Q2Qc (1 # 1));
        Average (arithmetic_mean [Q2Qc (0 # 3); Q2Qc (1 # 1)]) ]
      = rows ++ [Average avg]
      ∧ Forall is_metric rows
      ∧ NoDup (dataset_of <$> rows)
      ∧ (rows = [] → avg = 0%Qc)
      ∧ (rows ≠ [] →
         avg = (Qc_sum (accuracy_of <$> rows)
                / Q2Qc (inject_Z (Z.of_nat (length rows))))%Qc).
Proof.
  split; [vm_compute; reflexivity|].
  apply (average_is_unweighted_mean two_datasets 1 "pass").
  vm_compute; reflexivity.
Defined.

(** Dataset ["A"] at accuracy 1 and dataset ["B"] at accuracy 0 average to
    one half, although ["B"] has three times the samples of ["A"]. *)
Example two_datasets_average :
  ∃ avg, last <$> compute_metrics_fn two_datasets 1 "pass" = Ok (Some (Average avg))
         ∧ avg = Q2Qc (1 # 2).
Proof. eexists. split; [vm_compute; reflexivity|]. by apply Qc_is_canon. Qed.

(** C2. Once the aggregation loop has produced its decisions,
    [compute_metrics_fn] returns (the division never raises): every
    per-dataset row has [total] > 0, the number of decisions of that
    dataset, and its accuracy is exactly [correct / total]. *)
Theorem accuracy_is_correct_over_total er k agg_method rs :
  final_results_of er k agg_method = Ok rs →
  ∃ rows avg,
    compute_metrics_fn er k agg_method = Ok (rows ++ [Average avg])
    ∧ Forall (row_ok rs) rows.
Proof.
  intros H. rewrite (compute_metrics_fn_unfold _ _ _ _ H).
  rewrite metrics_of_results_spec. eexists _, _. split; [done|].
  apply Forall_fmap, Forall_forall. intros d Hd. simpl.
  rewrite elem_of_first_seen in Hd.
  split_and!; try done.
  - by apply count_total_pos.
  - apply count_correct_le.
Qed.

Lemma accuracy_is_correct_over_total_witness :
  final_results_of two_datasets 1 "pass"
  = Ok [ {| fr_dataset := "B"; fr_ans := Some "7"; fr_correct := false |};
         {| fr_dataset := "A"; fr_ans := Some "1"; fr_correct := true |};
         {| fr_dataset := "B"; fr_ans := Some "8"; fr_correct := false |};
         {| fr_dataset := "B"; fr_ans := Some "9"; fr_correct := false |} ]
  ∧ ∃ rows avg,
      compute_metrics_fn two_datasets 1 "pass" = Ok (rows ++ [Average avg])
      ∧ Forall (row_ok
          [ {| fr_dataset := "B"; fr_ans := Some "7"; fr_correct := false |};
            {| fr_dataset := "A"; fr_ans := Some "1"; fr_correct := true |};
            {| fr_dataset := "B"; fr_ans := Some "8"; fr_correct := false |};
            {| fr_dataset := "B"; fr_ans := Some "9"; fr_correct := false |} ]) rows.
Proof.
  split; [reflexivity|].
  apply (accuracy_is_correct_over_total two_datasets 1 "pass"). reflexivity.
Defined.

(** C3. The rows of the output are the per-dataset rows, one for each
    dataset name of the input in order of first occurrence, followed by
    exactly one [Average] row; and the function returns whenever the method
    is a registered one and every sample has a record among its first [k].
    The output is a function of the input list alone. *)
Theorem rows_in_first_seen_order er k agg_method :
  (∀ out, compute_metrics_fn er k agg_method = Ok out →
     ∃ rows avg,
       out = rows ++ [Average avg]
       ∧ dataset_of <$> rows = Some <$> first_seen (dataset <$> er))
  ∧ (agg_method = "pass" ∨ agg_method = "majority_vote" →
     Forall (λ s, slice_to k (generation s) ≠ []) er →
     ∃ out, compute_metrics_fn er k agg_method = Ok out).
Proof.
  split.
  - intros out H. apply compute_metrics_fn_inv in H as (rs & Hrs & H).
    rewrite metrics_of_results_spec in H. inversion H; subst; clear H.
    eexists _, _. split; [done|].
    rewrite expected_rows_dataset. do 2 f_equal.
    by eapply final_results_of_datasets.
  - intros Hm Hs.
    destruct (final_results_of_returns er k agg_method Hm Hs) as [rs Hrs].
    rewrite (compute_metrics_fn_unfold _ _ _ _ Hrs), metrics_of_results_spec.
    by eexists.
Qed.

Lemma rows_in_first_seen_order_witness :
  (compute_metrics_fn two_datasets 1 "majority_vote"
   = Ok [ Metric "B" 3 0 (Q2Qc (0 # 3)); Metric "A" 1 1 (Q2Qc (1 # 1));
          Average (arithmetic_mean [Q2Qc (0 # 3); Q2Qc (1 # 1)]) ]
   ∧ ∃ rows avg,
       [ Metric "B" 3 0 (Q2Qc (0 # 3)); Metric "A" 1 1 (Q2Qc (1 # 1));
         Average (arithmetic_mean [Q2Qc (0 # 3); Q2Qc (1 # 1)]) ]
       = rows ++ [Average avg]
       ∧ dataset_of <$> rows = Some <$> first_seen (dataset <$> two_datasets))
  ∧ (("majority_vote" = "pass" ∨ "majority_vote" = "majority_vote")
     ∧ Forall (λ s, slice_to 1 (generation s) ≠ []) two_datasets
     ∧ ∃ out, compute_metrics_fn two_datasets 1 "majority_vote" = Ok out).
Proof.
  pose proof (rows_in_first_seen_order two_datasets 1 "majority_vote") as [H1 H2].
  assert (Hs : Forall (λ s, slice_to 1 (generation s) ≠ []) two_datasets)
    by (repeat constructor; discriminate).
  split; [split; [vm_compute; reflexivity|]|split; [by right|split; [exact Hs|]]].
  - apply H1. vm_compute; reflexivity.
  - apply H2; [by right|exact Hs].
Defined.

(** C4 (with [pass] modelled from the spec).  With [k = 1] and method
    ["pass"] the decision for a sample carries the correctness flag of its
    first generation record.  Three samples of ["college_math"] with flags
    [true; false; true] give accuracy 2/3 for the dataset and for the
    average, which is 0.667 to three decimals. *)
Theorem pass_at_1_reproduces_flag :
  (∀ ds g rest,
     final_result_of 1 "pass" {| dataset := ds; generation := g :: rest |}
     = Ok {| fr_dataset := ds; fr_ans := Some (pred g); fr_correct := correct g |})
  ∧ (∀ p1 p2 p3,
       compute_metrics_fn (college_math_3 p1 p2 p3) 1 "pass"
       = Ok [ Metric "college_math" 3 2 (Q2Qc (2 # 3)); Average (Q2Qc (2 # 3)) ])
  ∧ (6665 # 10000 <= Q2Qc (2 # 3) < 6675 # 10000)%Q.
Proof.
  split_and!.
  - done.
  - intros p1 p2 p3. vm_compute.
    apply (f_equal Ok), (f_equal (cons _)), (f_equal (λ a, [Average a])).
    by apply Qc_is_canon.
  - by vm_compute.
  - reflexivity.
Qed.

(** ** Majority vote *)

Lemma votes_Permutation a l l' : l ≡ₚ l' → votes a l = votes a l'.
Proof. intros H. unfold votes. by rewrite H. Qed.

(** The winner is the first record whose answer has the most votes. *)
Lemma modal_spec l s t :
  ∃ pre post,
    s :: t = pre ++ modal l s t :: post
    ∧ Forall (λ x, votes (ans x) l < votes (ans (modal l s t)) l) pre
    ∧ Forall (λ x, votes (ans x) l ≤ votes (ans (modal l s t)) l) post.
Proof.
  unfold modal. induction t as [|x t IH] using rev_ind.
  - exists [], []. by split_and!.
  - rewrite foldl_snoc. destruct IH as (pre & post & E & Hpre & Hpost).
    set (r := foldl (better l) s t) in *. unfold better.
    case_decide as Hlt.
    + exists (s :: t), []. split_and!; [done| |done].
      rewrite E. apply Forall_app. split; [|constructor].
      * eapply Forall_impl; [exact Hpre|]. simpl. lia.
      * lia.
      * eapply Forall_impl; [exact Hpost|]. simpl. lia.
    + exists pre, (post ++ [x]). split_and!; [|done|].
      * rewrite app_comm_cons, E, <- app_assoc. done.
      * apply Forall_app. split; [done|]. constructor; [lia|done].
Qed.

Lemma modal_is_modal s t : is_modal (s :: t) (ans (modal (s :: t) s t)).
Proof.
  unfold is_modal.
  destruct (modal_spec (s :: t) s t) as (pre & post & E & Hpre & Hpost).
  rewrite E at 1. apply Forall_app. split; [|constructor; [lia|done]].
  eapply Forall_impl; [exact Hpre|]. simpl. lia.
Qed.

Lemma is_modal_Permutation l l' a : l ≡ₚ l' → is_modal l a → is_modal l' a.
Proof.
  intros Hp H. unfold is_modal in *. apply Forall_forall. intros x Hx.
  rewrite <- Hp in Hx. rewrite Forall_forall in H. specialize (H x Hx).
  by rewrite <- !(votes_Permutation _ l l' Hp).
Qed.

(** C5, as amended (with [majority_vote] modelled from the spec).  On a
    non-empty list the decision is that of the first record whose answer
    has the most votes: every earlier record has strictly fewer votes and no
    later one has more, so ties go to the earliest-occurring group.  When no
    two answers tie for the first place and records with equal answers agree
    on dataset and correctness, the decision is the same on every
    permutation of the list. *)
Theorem majority_vote_earliest_modal_group l l' :
  (l ≠ [] →
   ∃ pre rep post,
     l = pre ++ rep :: post
     ∧ majority_vote l = Ok (decision_of rep)
     ∧ Forall (λ x, votes (ans x) l < votes (ans rep) l) pre
     ∧ Forall (λ x, votes (ans x) l ≤ votes (ans rep) l) post)
  ∧ (l ≡ₚ l' → unique_mode l → graded_by_answer l →
     majority_vote l' = majority_vote l).
Proof.
  split.
  - intros Hne. destruct l as [|s t]; [done|].
    destruct (modal_spec (s :: t) s t) as (pre & post & E & Hpre & Hpost).
    by exists pre, (modal (s :: t) s t), post.
  - intros Hp Hu Hg. destruct l as [|s t].
    { apply Permutation_nil_l in Hp. by subst. }
    destruct l' as [|s' t']; [by apply Permutation_nil_r in Hp|].
    unfold majority_vote. apply (f_equal Ok).
    set (r := modal (s :: t) s t). set (r' := modal (s' :: t') s' t').
    assert (Hr : r ∈ s :: t) by apply modal_elem_of.
    assert (Hr' : r' ∈ s :: t) by (rewrite Hp; apply modal_elem_of).
    assert (Hm : is_modal (s :: t) (ans r)) by apply modal_is_modal.
    assert (Hm' : is_modal (s :: t) (ans r')).
    { apply (is_modal_Permutation (s' :: t')); [done|]. apply modal_is_modal. }
    unfold unique_mode, graded_by_answer in *.
    rewrite Forall_forall in Hu. specialize (Hu r' Hr').
    rewrite Forall_forall in Hu. specialize (Hu r Hr Hm' Hm).
    rewrite Forall_forall in Hg. specialize (Hg r' Hr').
    rewrite Forall_forall in Hg. destruct (Hg r Hr Hu) as [Hd Hc].
    unfold decision_of. by rewrite Hu, Hd, Hc.
Qed.

(** C5, as stated, fails: two answers with one vote each tie, the earliest
    group wins, and swapping the two records changes the decision. *)
Lemma majority_vote_not_permutation_invariant :
  ∃ l l',
    l ≡ₚ l' ∧ graded_by_answer l ∧ majority_vote l ≠ majority_vote l'.
Proof.
  exists [vote "1" true; vote "2" false], [vote "2" false; vote "1" true].
  split_and!.
  - apply perm_swap.
  - unfold graded_by_answer. repeat constructor; done.
  - done.
Qed.

Lemma majority_vote_earliest_modal_group_witness :
  ([vote "3" true; vote "2" false; vote "3" true] ≠ [] ∧
   ∃ pre rep post,
     [vote "3" true; vote "2" false; vote "3" true] = pre ++ rep :: post
     ∧ majority_vote [vote "3" true; vote "2" false; vote "3" true]
       = Ok (decision_of rep)
     ∧ Forall (λ x, votes (ans x) [vote "3" true; vote "2" false; vote "3" true]
                    < votes (ans rep) [vote "3" true; vote "2" false; vote "3" true]) pre
     ∧ Forall (λ x, votes (ans x) [vote "3" true; vote "2" false; vote "3" true]
                    ≤ votes (ans rep) [vote "3" true; vote "2" false; vote "3" true]) post)
  ∧ ([vote "3" true; vote "2" false; vote "3" true]
       ≡ₚ [vote "2" false; vote "3" true; vote "3" true]
     ∧ unique_mode [vote "3" true; vote "2" false; vote "3" true]
     ∧ graded_by_answer [vote "3" true; vote "2" false; vote "3" true]
     ∧ majority_vote [vote "2" false; vote "3" true; vote "3" true]
       = majority_vote [vote "3" true; vote "2" false; vote "3" true]).
Proof.
  pose proof (majority_vote_earliest_modal_group
    [vote "3" true; vote "2" false; vote "3" true]
    [vote "2" false; vote "3" true; vote "3" true]) as [H1 H2].
  assert (Hp : [vote "3" true; vote "2" false; vote "3" true]
               ≡ₚ [vote "2" false; vote "3" true; vote "3" true])
    by apply perm_swap.
  assert (Hu : unique_mode [vote "3" true; vote "2" false; vote "3" true])
    by (apply (bool_decide_unpack _); vm_compute; exact I).
  assert (Hg : graded_by_answer [vote "3" true; vote "2" false; vote "3" true])
    by (apply (bool_decide_unpack _); vm_compute; exact I).
  split.
  - split; [discriminate|]. apply H1. discriminate.
  - split_and!; [exact Hp|exact Hu|exact Hg|]. by apply H2.
Defined.

(** ** The sample-count cap *)

(** C10, as amended.  A cap of [0] leaves the loaded dataset as it is; a
    positive cap [n] keeps exactly the first [n] samples (all of them when
    fewer are loaded); a negative cap [-n] is a slice from the end and drops
    the last [n] samples. *)
Theorem cap_zero_disables (datasets : list Sample) :
  apply_cap 0 datasets = datasets
  ∧ (∀ n : positive, apply_cap (Z.pos n) datasets = take (Pos.to_nat n) datasets)
  ∧ (∀ n : positive,
       apply_cap (Z.neg n) datasets
       = take (length datasets - Pos.to_nat n) datasets).
Proof.
  split_and!; [done| |]; intros n; unfold apply_cap, slice_to.
  - rewrite decide_True by done. rewrite decide_True by lia.
    by rewrite Z2Nat.inj_pos.
  - rewrite decide_True by done. rewrite decide_False by lia.
    by rewrite Pos2Z.opp_neg, Z2Nat.inj_pos.
Qed.

(** C10, as stated, fails: a cap of [-1] is not zero, yet what is kept is
    not a prefix of [-1] samples but all samples except the last. *)
Lemma cap_negative_drops_from_the_end :
  ∃ (n : Z) (datasets : list Sample),
    n ≠ 0%Z
    ∧ apply_cap n datasets ≠ take (Z.to_nat n) datasets
    ∧ length (apply_cap n datasets) = 2.
Proof.
  exists (-1)%Z, [ {["question" := "a"]}; {["question" := "b"]};
                   {["question" := "c"]} ].
  split_and!; [done|discriminate|done].
Qed.

(** ** [compute_metrics_fn] on the heap *)

Lemma Py_bind_Ok {A B} (m : Py A) (f : A → Py B) h a h' :
  m h = (Ok a, h') → (m ≫= f) h = f a h'.
Proof. intros E. unfold mbind, Py_bind. by rewrite E. Qed.

Lemma Py_bind_Raise {A B} (m : Py A) (f : A → Py B) h e h' :
  m h = (Raise e, h') → (m ≫= f) h = (Raise e, h').
Proof. intros E. unfold mbind, Py_bind. by rewrite E. Qed.

Lemma get_obj_Some l (h : heap) o : h !! l = Some o → get_obj l h = (Ok o, h).
Proof. intros E. unfold get_obj. by rewrite E. Qed.

Lemma fresh_is_new (h : heap) : h !! fresh (dom h) = None.
Proof. apply not_elem_of_dom, is_fresh. Qed.

(** *** Objects that stay are seen as before *)

Lemma view_scores_mono (h h' : heap) sc xs :
  h ⊆ h' → view_scores h sc = Some xs → view_scores h' sc = Some xs.
Proof.
  intros Hsub. destruct sc as [l|]; simpl; [|done].
  destruct (h !! l) as [o|] eqn:E; [|done].
  by rewrite (lookup_weaken _ _ _ _ E Hsub).
Qed.

Lemma view_generation_mono (h h' : heap) l g :
  h ⊆ h' → view_generation h l = Some g → view_generation h' l = Some g.
Proof.
  intros Hsub. unfold view_generation.
  destruct (h !! l) as [o|] eqn:E; [|done].
  rewrite (lookup_weaken _ _ _ _ E Hsub). destruct o; try done.
  destruct (view_scores h rewards) as [xs|] eqn:Hs; [|done].
  by rewrite (view_scores_mono _ _ _ _ Hsub Hs).
Qed.

Lemma view_eval_sample_mono (h h' : heap) l s :
  h ⊆ h' → view_eval_sample h l = Some s → view_eval_sample h' l = Some s.
Proof.
  intros Hsub. unfold view_eval_sample.
  destruct (h !! l) as [o|] eqn:E; [|done].
  rewrite (lookup_weaken _ _ _ _ E Hsub). destruct o; try done.
  destruct (view_scores h sc) as [xs|] eqn:Hs; [|done].
  by rewrite (view_scores_mono _ _ _ _ Hsub Hs).
Qed.

Lemma mapM_mono {A} (v v' : nat → option A) ls xs :
  (∀ l x, v l = Some x → v' l = Some x) →
  mapM v ls = Some xs → mapM v' ls = Some xs.
Proof.
  intros Hv. rewrite !mapM_Some. intros HF. eapply Forall2_impl; eauto.
Qed.

Lemma view_sample_mono (h h' : heap) l s :
  h ⊆ h' → view_sample h l = Some s → view_sample h' l = Some s.
Proof.
  intros Hsub. unfold view_sample.
  destruct (h !! l) as [o|] eqn:E; [|done].
  rewrite (lookup_weaken _ _ _ _ E Hsub). destruct o; try done.
  destruct (h !! gens) as [og|] eqn:Eg; [|done].
  rewrite (lookup_weaken _ _ _ _ Eg Hsub). destruct og; try done.
  destruct (mapM (view_generation h) items) as [gs|] eqn:Hm; [|done].
  by rewrite (mapM_mono _ (view_generation h') _ _
                (λ l x, view_generation_mono h h' l x Hsub) Hm).
Qed.

Lemma view_eval_results_mono (h h' : heap) l er :
  h ⊆ h' → view_eval_results h l = Some er → view_eval_results h' l = Some er.
Proof.
  intros Hsub. unfold view_eval_results.
  destruct (h !! l) as [o|] eqn:E; [|done].
  rewrite (lookup_weaken _ _ _ _ E Hsub). destruct o; try done.
  apply mapM_mono. intros ? ?. by apply view_sample_mono.
Qed.

(** *** What the function writes itself *)

Lemma frame_ret {A} (a : A) : frame (mret a).
Proof. by intros h. Qed.

Lemma frame_lift {A} (r : result A) : frame (lift r).
Proof. by intros h. Qed.

Lemma frame_get_obj l : frame (get_obj l).
Proof. by intros h. Qed.

Lemma frame_new_obj o : frame (new_obj o).
Proof. intros h. simpl. apply insert_subseteq, fresh_is_new. Qed.

Lemma frame_bind {A B} (m : Py A) (f : A → Py B) :
  frame m → (∀ a, frame (f a)) → frame (m ≫= f).
Proof.
  intros Hm Hf h. unfold mbind, Py_bind.
  specialize (Hm h). destruct (m h) as [[a|e] h1]; simpl in *; [|done].
  by etrans; [|apply Hf].
Qed.

Lemma frame_for_each_py {A B} (f : A → Py B) l :
  (∀ a, frame (f a)) → frame (for_each_py f l).
Proof.
  intros Hf. induction l as [|x t IH]; simpl; [apply frame_ret|].
  apply frame_bind; [done|]. intros y.
  apply frame_bind; [done|]. intros ys. apply frame_ret.
Qed.

Lemma frame_eval_sample_py d generation : frame (eval_sample_py d generation).
Proof.
  apply frame_bind; [apply frame_get_obj|].
  intros []; auto using frame_lift, frame_new_obj.
Qed.

Lemma frame_final_result_py registry k agg_method sample :
  (∀ agg_fn eval_samples,
     registry agg_method = Ok agg_fn → frame (agg_fn eval_samples)) →
  frame (final_result_py registry k agg_method sample).
Proof.
  intros Hreg. apply frame_bind; [apply frame_get_obj|].
  intros []; try apply frame_lift.
  apply frame_bind; [apply frame_get_obj|].
  intros []; try apply frame_lift.
  apply frame_bind; [apply frame_for_each_py, frame_eval_sample_py|].
  intros eval_samples.
  destruct (registry agg_method) as [agg_fn|e] eqn:E.
  - intros h. by apply Hreg.
  - by intros h.
Qed.

Lemma frame_decision_py l : frame (decision_py l).
Proof.
  apply frame_bind; [apply frame_get_obj|].
  intros []; auto using frame_lift, frame_ret.
Qed.

(** Whatever the registry holds, a call of [compute_metrics_fn] changes an
    object that existed before it only if the aggregation function does:
    the function writes to the objects it builds and to no other. *)
Lemma compute_metrics_fn_py_frame registry k agg_method eval_results :
  (∀ agg_fn eval_samples,
     registry agg_method = Ok agg_fn → frame (agg_fn eval_samples)) →
  frame (compute_metrics_fn_py registry k agg_method eval_results).
Proof.
  intros Hreg. apply frame_bind; [apply frame_get_obj|].
  intros []; try apply frame_lift.
  apply frame_bind.
  { apply frame_for_each_py. intros sample. by apply frame_final_result_py. }
  intros final_results.
  apply frame_bind; [apply frame_for_each_py, frame_decision_py|].
  intros decisions. apply frame_lift.
Qed.

(** *** The records an aggregation function receives *)

Lemma eval_sample_py_spec d generation (h : heap) g :
  view_generation h generation = Some g →
  ∃ l h', eval_sample_py d generation h = (Ok l, h') ∧ h ⊆ h'
    ∧ view_eval_sample h' l
      = Some {| es_dataset := d; ans := pred g; scores := step_rewards g;
                es_correct := correct g |}.
Proof.
  unfold view_generation. intros Hv.
  destruct (h !! generation) as [[]|] eqn:E; try done.
  destruct (view_scores h rewards) as [xs|] eqn:Hs; [|done].
  injection Hv as <-. simpl.
  pose proof (fresh_is_new h) as Hfresh.
  exists (fresh (dom h)), (<[fresh (dom h) := EvalSampleDict d p rewards c]> h).
  split_and!.
  - unfold eval_sample_py.
    by rewrite (Py_bind_Ok _ _ _ _ _ (get_obj_Some _ _ _ E)).
  - by apply insert_subseteq.
  - unfold view_eval_sample. rewrite lookup_insert_eq.
    by rewrite (view_scores_mono h _ _ _ (insert_subseteq _ _ _ Hfresh) Hs).
Qed.

Lemma eval_samples_py_spec d gens gs : ∀ h : heap,
  Forall2 (λ l g, view_generation h l = Some g) gens gs →
  ∃ ls h', for_each_py (eval_sample_py d) gens h = (Ok ls, h') ∧ h ⊆ h'
    ∧ Forall2 (λ l s, view_eval_sample h' l = Some s) ls
        ((λ g, {| es_dataset := d; ans := pred g; scores := step_rewards g;
                  es_correct := correct g |}) <$> gs).
Proof.
  revert gs. induction gens as [|lg gens IH]; intros gs h HF.
  - apply Forall2_nil_inv_l in HF as ->. exists [], h. by split_and!.
  - apply Forall2_cons_inv_l in HF as (g & gs' & Hg & HF & ->).
    destruct (eval_sample_py_spec d lg h g Hg) as (l & h1 & E1 & Hsub1 & Hv1).
    destruct (IH gs' h1) as (ls & h2 & E2 & Hsub2 & Hv2).
    { eapply Forall2_impl; [done|]. intros ? ?. by apply view_generation_mono. }
    exists (l :: ls), h2. split_and!.
    + simpl. rewrite (Py_bind_Ok _ _ _ _ _ E1).
      by rewrite (Py_bind_Ok _ _ _ _ _ E2).
    + by etrans.
    + csimpl. constructor; [|done]. by eapply view_eval_sample_mono.
Qed.

(** *** The aggregation functions of the registry *)

Lemma read_scores_spec (h : heap) sc xs :
  view_scores h sc = Some xs → read_scores sc h = (Ok xs, h).
Proof.
  destruct sc as [l|]; simpl; [|by intros [= <-]].
  destruct (h !! l) as [[]|] eqn:E; try done. intros [= <-].
  by rewrite (Py_bind_Ok _ _ _ _ _ (get_obj_Some _ _ _ E)).
Qed.

Lemma read_eval_sample_spec (h : heap) l s :
  view_eval_sample h l = Some s → read_eval_sample l h = (Ok s, h).
Proof.
  unfold view_eval_sample, read_eval_sample.
  destruct (h !! l) as [[]|] eqn:E; try done.
  destruct (view_scores h sc) as [xs|] eqn:Hs; [|done]. intros [= <-].
  rewrite (Py_bind_Ok _ _ _ _ _ (get_obj_Some _ _ _ E)).
  by rewrite (Py_bind_Ok _ _ _ _ _ (read_scores_spec _ _ _ Hs)).
Qed.

Lemma read_eval_samples_spec (h : heap) ls ss :
  Forall2 (λ l s, view_eval_sample h l = Some s) ls ss →
  for_each_py read_eval_sample ls h = (Ok ss, h).
Proof.
  induction 1 as [|l s ls ss Hv _ IH]; [done|]. simpl.
  rewrite (Py_bind_Ok _ _ _ _ _ (read_eval_sample_spec _ _ _ Hv)).
  by rewrite (Py_bind_Ok _ _ _ _ _ IH).
Qed.

Lemma on_records_spec f (h : heap) ls ss :
  Forall2 (λ l s, view_eval_sample h l = Some s) ls ss →
  ∃ h', h ⊆ h' ∧
    match f ss with
    | Ok d =>
        ∃ l, on_records f ls h = (Ok l, h') ∧ h' !! l = Some (DecisionDict d)
    | Raise e => on_records f ls h = (Raise e, h')
    end.
Proof.
  intros HF. unfold on_records.
  rewrite (Py_bind_Ok _ _ _ _ _ (read_eval_samples_spec _ _ _ HF)).
  destruct (f ss) as [d|e] eqn:E.
  - exists (<[fresh (dom h) := DecisionDict d]> h). split.
    + apply insert_subseteq, fresh_is_new.
    + exists (fresh (dom h)). split; [done|]. by rewrite lookup_insert_eq.
  - by exists h.
Qed.

(** *** The loops *)

Lemma slice_to_Forall2 {A B} (P : A → B → Prop) k l l' :
  Forall2 P l l' → Forall2 P (slice_to k l) (slice_to k l').
Proof.
  intros HF. unfold slice_to. rewrite (Forall2_length _ _ _ HF).
  case_decide; by apply Forall2_take.
Qed.

Lemma final_result_py_spec k agg_method (h : heap) sample s :
  view_sample h sample = Some s →
  ∃ h', h ⊆ h' ∧
    match final_result_of k agg_method s with
    | Ok d =>
        ∃ l, final_result_py AGG_FN_MAP_py k agg_method sample h = (Ok l, h')
             ∧ h' !! l = Some (DecisionDict d)
    | Raise e =>
        final_result_py AGG_FN_MAP_py k agg_method sample h = (Raise e, h')
    end.
Proof.
  unfold view_sample. intros Hv.
  destruct (h !! sample) as [[]|] eqn:E; try done.
  destruct (h !! gens) as [[]|] eqn:Eg; try done.
  destruct (mapM (view_generation h) items) as [gs|] eqn:Hm; [|done].
  injection Hv as <-. apply mapM_Some in Hm.
  destruct (eval_samples_py_spec d _ _ h (slice_to_Forall2 _ k _ _ Hm))
    as (es & h1 & E1 & Hsub1 & Hv1).
  unfold final_result_py, final_result_of, AGG_FN_MAP_py.
  rewrite (Py_bind_Ok _ _ _ _ _ (get_obj_Some _ _ _ E)).
  rewrite (Py_bind_Ok _ _ _ _ _ (get_obj_Some _ _ _ Eg)).
  rewrite (Py_bind_Ok _ _ _ _ _ E1). simpl generation.
  destruct (agg_fn_of agg_method) as [f|e]; csimpl.
  - destruct (on_records_spec f h1 _ _ Hv1) as (h2 & Hsub2 & H2).
    exists h2. split; [by etrans|]. done.
  - by exists h1.
Qed.

Lemma final_results_py_spec k agg_method samples er : ∀ h : heap,
  Forall2 (λ l s, view_sample h l = Some s) samples er →
  ∃ h', h ⊆ h' ∧
    match for_each (final_result_of k agg_method) er with
    | Ok ds => ∃ ls,
        for_each_py (final_result_py AGG_FN_MAP_py k agg_method) samples h
          = (Ok ls, h')
        ∧ Forall2 (λ l d, h' !! l = Some (DecisionDict d)) ls ds
    | Raise e =>
        for_each_py (final_result_py AGG_FN_MAP_py k agg_method) samples h
          = (Raise e, h')
    end.
Proof.
  revert er. induction samples as [|l samples IH]; intros er h HF.
  - apply Forall2_nil_inv_l in HF as ->. exists h. split; [done|]. by exists [].
  - apply Forall2_cons_inv_l in HF as (s & er' & Hs & HF & ->).
    destruct (final_result_py_spec k agg_method h l s Hs) as (h1 & Hsub1 & H1).
    simpl. destruct (final_result_of k agg_method s) as [d|e]; simpl.
    + destruct H1 as (l1 & E1 & Hl1).
      destruct (IH er' h1) as (h2 & Hsub2 & H2).
      { eapply Forall2_impl; [done|]. intros ? ?. by apply view_sample_mono. }
      exists h2. split; [by etrans|].
      rewrite (Py_bind_Ok _ _ _ _ _ E1).
      destruct (for_each (final_result_of k agg_method) er') as [ds|e]; simpl.
      * destruct H2 as (ls & E2 & HF2). exists (l1 :: ls).
        rewrite (Py_bind_Ok _ _ _ _ _ E2). split; [done|].
        constructor; [|done]. by eapply lookup_weaken.
      * by rewrite (Py_bind_Raise _ _ _ _ _ H2).
    + exists h1. split; [done|]. by rewrite (Py_bind_Raise _ _ _ _ _ H1).
Qed.

Lemma decisions_py_spec (h : heap) ls ds :
  Forall2 (λ l d, h !! l = Some (DecisionDict d)) ls ds →
  for_each_py decision_py ls h = (Ok ds, h).
Proof.
  induction 1 as [|l d ls ds Hl _ IH]; [done|]. simpl.
  assert (decision_py l h = (Ok d, h)) as E.
  { unfold decision_py.
    by rewrite (Py_bind_Ok _ _ _ _ _ (get_obj_Some _ _ _ Hl)). }
  rewrite (Py_bind_Ok _ _ _ _ _ E). by rewrite (Py_bind_Ok _ _ _ _ _ IH).
Qed.

(** C9. Called on a list [eval_results] of the caller, whose value is
    [er], with the aggregation functions of the registry,
    [compute_metrics_fn] returns (or raises) what the function
    [compute_metrics_fn] of the value [er], of [k] and of [agg_method]
    gives, whatever the references of the objects are; every object that
    existed before the call is the same after it, the step rewards that
    the records of the aggregation function share with the caller's
    generations included, so the heap has only grown by the objects the
    call built; and the caller's list still has the value [er]. *)
Theorem compute_metrics_fn_no_side_effects (h : heap) eval_results er k
    agg_method :
  view_eval_results h eval_results = Some er →
  ∃ h',
    compute_metrics_fn_py AGG_FN_MAP_py k agg_method eval_results h
      = (compute_metrics_fn er k agg_method, h')
    ∧ h ⊆ h'
    ∧ view_eval_results h' eval_results = Some er.
Proof.
  intros Hv. pose proof Hv as Hv0. unfold view_eval_results in Hv.
  destruct (h !! eval_results) as [[]|] eqn:E; try done.
  apply mapM_Some in Hv.
  destruct (final_results_py_spec k agg_method _ _ h Hv) as (h' & Hsub & Hrun).
  exists h'. split_and!; [|done|by eapply view_eval_results_mono].
  unfold compute_metrics_fn_py, compute_metrics_fn, final_results_of.
  rewrite (Py_bind_Ok _ _ _ _ _ (get_obj_Some _ _ _ E)).
  destruct (for_each (final_result_of k agg_method) er) as [ds|e]; simpl.
  - destruct Hrun as (ls & E1 & HF).
    rewrite (Py_bind_Ok _ _ _ _ _ E1).
    by rewrite (Py_bind_Ok _ _ _ _ _ (decisions_py_spec _ _ _ HF)).
  - by rewrite (Py_bind_Raise _ _ _ _ _ Hrun).
Qed.

Lemma compute_metrics_fn_no_side_effects_witness :
  view_eval_results example_heap 0 = Some example_eval_results
  ∧ ∃ h',
      compute_metrics_fn_py AGG_FN_MAP_py 1 "pass" 0 example_heap
        = (compute_metrics_fn example_eval_results 1 "pass", h')
      ∧ example_heap ⊆ h'
      ∧ view_eval_results h' 0 = Some example_eval_results.
Proof.
  split; [reflexivity|].
  apply (compute_metrics_fn_no_side_effects example_heap 0
           example_eval_results 1 "pass").
  reflexivity.
Defined.

(** With an aggregation function that writes to the scores of a record,
    the same call changes the caller's list: the scores of the record are
    the step rewards of the caller's generation. *)
Example writing_aggregator_reaches_the_caller :
  view_eval_results example_heap 0 = Some example_eval_results
  ∧ view_eval_results
      (compute_metrics_fn_py (λ _, Ok scrubbing) 1 "pass" 0 example_heap).2 0
    = Some scrubbed_eval_results
  ∧ example_heap !! 4 = Some (FloatList [1%Qc])
  ∧ (compute_metrics_fn_py (λ _, Ok scrubbing) 1 "pass" 0 example_heap).2 !! 4
    = Some (FloatList []).
Proof. split_and!; vm_compute; reflexivity. Qed.

(** ** The grading loop *)

Section Grading.

Variable math_equal : string → string → result bool.

Lemma grade_correct g : ∃ b, (grade math_equal g).1 = set_correct g b.
Proof. unfold grade. destruct (math_equal _ _); by eexists. Qed.

Lemma grade_raise g e :
  math_equal (gen_pred g) (gt_ans g) = Raise e →
  grade math_equal g
  = (set_correct g false, [EvaluationFailed (gen_pred g) (gt_ans g) e]).
Proof. unfold grade. by intros ->. Qed.

Lemma evaluate_lookup w j g :
  generations w !! j = Some g →
  generations (evaluate math_equal w) !! j = Some (grade math_equal g).1.
Proof. intros H. simpl. by rewrite list_lookup_fmap, H. Qed.

(** After the grading loop every record has its ["correct"] key, so the
    construction of [eval_results] cannot raise. *)
Lemma eval_results_after_grading w :
  for_each eval_result_of (generations (evaluate math_equal w))
  = Ok ((λ g, single (gen_dataset g) (gen_pred g)
                (default false (gen_correct g)))
        <$> generations (evaluate math_equal w)).
Proof.
  apply for_each_ok. simpl. apply Forall_fmap, Forall_forall.
  intros g _. simpl. by destruct (grade_correct g) as [b ->].
Qed.

(** C6. When [math_equal] raises on a record, the grading loop sets that
    record's correctness flag to false, logs the failure and goes on:
    the list keeps its length, every record gets a flag, and the record
    reaches the aggregator as a sample with a single, incorrect
    generation. *)
Theorem grading_failure_marks_false w i g e :
  generations w !! i = Some g →
  math_equal (gen_pred g) (gt_ans g) = Raise e →
  generations (evaluate math_equal w) !! i = Some (set_correct g false)
  ∧ length (generations (evaluate math_equal w)) = length (generations w)
  ∧ EvaluationFailed (gen_pred g) (gt_ans g) e ∈ log (evaluate math_equal w)
  ∧ (∀ j g', generations w !! j = Some g' →
       ∃ b, generations (evaluate math_equal w) !! j = Some (set_correct g' b))
  ∧ ∃ eval_results,
      for_each eval_result_of (generations (evaluate math_equal w))
      = Ok eval_results
      ∧ length eval_results = length (generations w)
      ∧ eval_results !! i = Some (single (gen_dataset g) (gen_pred g) false).
Proof.
  intros Hi He. split_and!.
  - by rewrite (evaluate_lookup _ _ _ Hi), (grade_raise _ _ He).
  - simpl. by rewrite length_fmap.
  - simpl. apply elem_of_app. right. apply list_elem_of_join.
    exists [EvaluationFailed (gen_pred g) (gt_ans g) e].
    split; [left|]. apply list_elem_of_fmap. exists g.
    split; [unfold compose; by rewrite (grade_raise _ _ He)|].
    by eapply list_elem_of_lookup_2.
  - intros j g' Hj. destruct (grade_correct g') as [b Hb].
    exists b. by rewrite (evaluate_lookup _ _ _ Hj), Hb.
  - eexists. split; [apply eval_results_after_grading|].
    split; [simpl; by rewrite !length_fmap|].
    rewrite list_lookup_fmap, (evaluate_lookup _ _ _ Hi).
    by rewrite (grade_raise _ _ He).
Qed.

End Grading.

Lemma grading_failure_marks_false_witness :
  (generations two_generated !! 0 = Some (generated "1+1" "?" "2")
   ∧ picky_math_equal "?" "2" = Raise (Exception "cannot parse"))
  ∧ generations (evaluate picky_math_equal two_generated) !! 0
    = Some (set_correct (generated "1+1" "?" "2") false)
  ∧ length (generations (evaluate picky_math_equal two_generated))
    = length (generations two_generated)
  ∧ EvaluationFailed "?" "2" (Exception "cannot parse")
    ∈ log (evaluate picky_math_equal two_generated)
  ∧ (∀ j g', generations two_generated !! j = Some g' →
       ∃ b, generations (evaluate picky_math_equal two_generated) !! j
            = Some (set_correct g' b))
  ∧ ∃ eval_results,
      for_each eval_result_of (generations (evaluate picky_math_equal two_generated))
      = Ok eval_results
      ∧ length eval_results = length (generations two_generated)
      ∧ eval_results !! 0 = Some (single "college_math" "?" false).
Proof.
  split; [split; reflexivity|].
  apply (grading_failure_marks_false picky_math_equal two_generated 0
           (generated "1+1" "?" "2") (Exception "cannot parse"));
    reflexivity.
Defined.

(** ** The generation loop *)

Section Generating.

Variable args : Args.
Variable generate_output : nat → string → result string.
Variable extract_and_strip : string → string → result string.
Variable parse_ground_truth : Sample → string → result (list string).

Local Abbreviation step :=
  (generate_step args generate_output extract_and_strip parse_ground_truth).
Local Abbreviation loop :=
  (generate_loop args generate_output extract_and_strip parse_ground_truth).
Local Abbreviation checkpoint := (checkpoint_path args).

Lemma generate_loop_app idx l1 l2 w :
  loop idx (l1 ++ l2) w = w1 ← loop idx l1 w ; loop (idx + length l1) l2 w1.
Proof.
  revert idx w. induction l1 as [|s l1 IH]; intros idx w; simpl.
  - by rewrite Nat.add_0_r.
  - destruct (step idx s w) as [w'|]; simpl; [|done].
    rewrite IH. by replace (S idx + length l1) with (idx + S (length l1)) by lia.
Qed.

(** A skipped sample only adds a line to the log. *)
Lemma generate_step_skipped idx s :
  find_prompt s = None
  ∨ (∃ prompt e, find_prompt s = Some prompt
                 ∧ generate_output idx prompt = Raise e) →
  ∃ ev,
    (ev = SkippedMalformed s ∨ ∃ prompt e, ev = GenerationFailed prompt e)
    ∧ ∀ w, step idx s w
           = Ok {| generations := generations w; files := files w;
                   log := log w ++ [ev] |}.
Proof.
  unfold generate_step. intros [Hp|(prompt & e & Hp & He)]; rewrite Hp.
  - exists (SkippedMalformed s). split; [by left|done].
  - rewrite He. exists (GenerationFailed prompt e). split; [|done].
    right. by eexists _, _.
Qed.

(** What a step can do to the state. *)
Lemma generate_step_inv idx s w w' :
  step idx s w = Ok w' →
  (¬ kept generate_output idx s
   ∧ generations w' = generations w ∧ files w' = files w)
  ∨ (kept generate_output idx s
     ∧ (∃ g, generations w' = generations w ++ [g])
     ∧ files w' = if decide ((idx + 1) `mod` checkpoint_interval = 0)
                  then <[checkpoint := generations w']> (files w)
                  else files w).
Proof.
  unfold generate_step, kept. intros H.
  destruct (find_prompt s) as [prompt|] eqn:Hp.
  2:{ left. inversion H; subst. split_and!; [|done..].
      by intros (? & ? & ? & _). }
  destruct (generate_output idx prompt) as [text|e] eqn:Hg.
  2:{ left. inversion H; subst. split_and!; [|done..].
      intros (? & ? & [= <-] & ?). congruence. }
  right. split; [by eexists _, _|].
  destruct (extract_and_strip _ _) as [p|]; simpl in H; [|done].
  destruct (ground_truth _ _ _) as [gt|]; simpl in H; [|done].
  destruct (decide ((idx + 1) `mod` checkpoint_interval = 0));
    inversion H; subst; simpl; split; by eauto.
Qed.

(** Between two boundaries the files are not touched. *)
Lemma generate_loop_files idx l w w' :
  loop idx l w = Ok w' →
  (∀ j, idx ≤ j < idx + length l → (j + 1) `mod` checkpoint_interval ≠ 0) →
  files w' = files w.
Proof.
  revert idx w. induction l as [|s l IH]; intros idx w H Hb; simpl in *.
  - by inversion H.
  - destruct (step idx s w) as [w1|] eqn:Hs; simpl in H; [|done].
    rewrite (IH _ _ H) by (intros j Hj; apply Hb; lia).
    apply generate_step_inv in Hs as [(_ & _ & ->)|(_ & _ & ->)]; [done|].
    rewrite decide_False; [done|]. apply Hb. lia.
Qed.

(** The generation list only grows, by at most one record per sample. *)
Lemma generate_loop_generations idx l w w' :
  loop idx l w = Ok w' →
  ∃ ext, generations w' = generations w ++ ext
         ∧ length ext ≤ length l
         ∧ ((∀ j s, l !! j = Some s → kept generate_output (idx + j) s) →
            length ext = length l).
Proof.
  revert idx w. induction l as [|s l IH]; intros idx w H; simpl in *.
  - inversion H; subst. exists []. by rewrite app_nil_r.
  - destruct (step idx s w) as [w1|] eqn:Hs; simpl in H; [|done].
    destruct (IH _ _ H) as (ext & -> & Hle & Hall).
    apply generate_step_inv in Hs as [(Hk & -> & _)|(_ & [g ->] & _)].
    + exists ext. split_and!; [done|lia|]. intros Hkept.
      exfalso. apply Hk. specialize (Hkept 0 s eq_refl).
      by rewrite Nat.add_0_r in Hkept.
    + exists (g :: ext). rewrite <- app_assoc. split_and!; [done|simpl; lia|].
      intros Hkept. simpl. f_equal. apply Hall. intros j s' Hj.
      specialize (Hkept (S j) s' Hj).
      by replace (S idx + j) with (idx + S j) by lia.
Qed.

(** C7. A sample without a usable question field, or one for which the
    generation call raises, does not stop the run: its step returns with
    the generation list and the files as they were and one more line in
    the log, and the loop goes on with the samples after it, so the
    sample is in no generation list and in nothing computed from one. *)
Theorem skipped_sample_is_excluded idx pre s post w :
  find_prompt s = None
  ∨ (∃ prompt e, find_prompt s = Some prompt
                 ∧ generate_output (idx + length pre) prompt = Raise e) →
  ∃ ev,
    (ev = SkippedMalformed s ∨ ∃ prompt e, ev = GenerationFailed prompt e)
    ∧ (∀ w0, step (idx + length pre) s w0
             = Ok {| generations := generations w0; files := files w0;
                     log := log w0 ++ [ev] |})
    ∧ loop idx (pre ++ s :: post) w
      = (w1 ← loop idx pre w ;
         loop (S (idx + length pre)) post
           {| generations := generations w1; files := files w1;
              log := log w1 ++ [ev] |})
    ∧ (∀ w', loop idx (pre ++ s :: post) w = Ok w' →
         ∃ w1 later,
           loop idx pre w = Ok w1
           ∧ generations w' = generations w1 ++ later
           ∧ length later ≤ length post).
Proof.
  intros Hs. destruct (generate_step_skipped _ _ Hs) as (ev & Hev & Hstep).
  assert (Heq : loop idx (pre ++ s :: post) w
    = (w1 ← loop idx pre w ;
       loop (S (idx + length pre)) post
         {| generations := generations w1; files := files w1;
            log := log w1 ++ [ev] |})).
  { rewrite generate_loop_app.
    destruct (loop idx pre w) as [w1|]; simpl; [|done]. by rewrite Hstep. }
  exists ev. split_and!; [done..|].
  intros w' Hrun. rewrite Heq in Hrun.
  destruct (loop idx pre w) as [w1|]; simpl in Hrun; [|done].
  destruct (generate_loop_generations _ _ _ _ Hrun) as (later & E & Hle & _).
  by exists w1, later.
Qed.

(** Arithmetic of the boundaries. *)
Lemma last_boundary_bounds n :
  checkpoint_interval * (n `div` checkpoint_interval) ≤ n
  ∧ n < checkpoint_interval * (n `div` checkpoint_interval) + checkpoint_interval.
Proof.
  unfold checkpoint_interval.
  pose proof (Nat.div_mod_eq n 100). pose proof (Nat.mod_upper_bound n 100).
  lia.
Qed.

Lemma last_boundary_mod n :
  (checkpoint_interval * (n `div` checkpoint_interval)) `mod` checkpoint_interval = 0.
Proof. rewrite Nat.mul_comm. apply Nat.Div0.mod_mul. Qed.

Lemma no_boundary_after_last n j :
  checkpoint_interval * (n `div` checkpoint_interval) ≤ j < n →
  (j + 1) `mod` checkpoint_interval ≠ 0.
Proof.
  intros Hj Hm. pose proof (last_boundary_bounds n) as Hn.
  unfold checkpoint_interval in *.
  pose proof (Nat.div_mod_eq (j + 1) 100) as Hd. rewrite Hm in Hd.
  assert ((j + 1) `div` 100 ≤ n `div` 100 ∨ n `div` 100 < (j + 1) `div` 100)
    as [?|?] by lia; lia.
Qed.

(** The run splits at the last boundary: when the sample there is kept,
    the file is what the generation list was at that point. *)
Lemma checkpoint_at_last_boundary ds w0 w :
  loop 0 ds w0 = Ok w →
  checkpoint_interval ≤ length ds →
  (∃ s, ds !! (checkpoint_interval * (length ds `div` checkpoint_interval) - 1)
        = Some s
        ∧ kept generate_output
            (checkpoint_interval * (length ds `div` checkpoint_interval) - 1) s) →
  ∃ w',
    loop 0 (take (checkpoint_interval * (length ds `div` checkpoint_interval)) ds)
      w0 = Ok w'
    ∧ loop (checkpoint_interval * (length ds `div` checkpoint_interval))
        (drop (checkpoint_interval * (length ds `div` checkpoint_interval)) ds) w'
      = Ok w
    ∧ files w !! checkpoint = Some (generations w').
Proof.
  set (n := length ds). set (m := checkpoint_interval * (n `div` checkpoint_interval)).
  intros Hrun Hn (s & Hs & Hkept).
  pose proof (last_boundary_bounds n) as [Hle Hlt]. fold m in Hle, Hlt.
  assert (Hm : 0 < m).
  { subst m. unfold checkpoint_interval in *.
    pose proof (Nat.div_mod_eq n 100). pose proof (Nat.mod_upper_bound n 100).
    lia. }
  rewrite <- (take_drop m ds), generate_loop_app in Hrun.
  destruct (loop 0 (take m ds) w0) as [w'|] eqn:Hpre;
    simpl in Hrun; [|done].
  rewrite length_take, Nat.min_l in Hrun by (fold n; lia).
  exists w'. split_and!; [done..|].
  rewrite (generate_loop_files _ _ _ _ Hrun).
  2:{ intros j Hj. rewrite length_drop in Hj. fold n in Hj.
      apply (no_boundary_after_last n). fold m. lia. }
  replace m with (S (m - 1)) in Hpre by lia.
  rewrite (take_S_r _ _ _ Hs), generate_loop_app in Hpre.
  destruct (loop 0 (take (m - 1) ds) w0) as [w1|];
    simpl in Hpre; [|done].
  rewrite length_take, Nat.min_l in Hpre
    by (apply Nat.lt_le_incl; by eapply lookup_lt_Some).
  destruct (step (m - 1) s w1) as [w2|] eqn:Hstep; simpl in Hpre; [|done].
  inversion Hpre; subst w2.
  apply generate_step_inv in Hstep as [(Hno & _)|(_ & _ & ->)]; [done|].
  replace (m - 1 + 1) with m by lia.
  rewrite decide_True by apply last_boundary_mod.
  apply lookup_insert_eq.
Qed.

(** C8, as amended.  A run over [n] samples, started with any files [fs]
    already in the output directory: before the 100th sample the checkpoint
    file is left as it was before the run; when the sample at the last
    100th position is kept, the file holds the generation list as it was
    at that position, written wholesale; and when no sample is
    skipped, it holds exactly the first [100 * (n / 100)] generation
    records, that is 100 records after 150 samples. *)
Theorem checkpoint_at_boundaries fs ds w :
  loop 0 ds (start_world fs) = Ok w →
  (length ds < checkpoint_interval → files w !! checkpoint = fs !! checkpoint)
  ∧ (checkpoint_interval ≤ length ds →
     (∃ s, ds !! (checkpoint_interval * (length ds `div` checkpoint_interval) - 1)
           = Some s
           ∧ kept generate_output
               (checkpoint_interval * (length ds `div` checkpoint_interval) - 1) s) →
     ∃ w',
       loop 0 (take (checkpoint_interval * (length ds `div` checkpoint_interval)) ds)
         (start_world fs) = Ok w'
       ∧ files w !! checkpoint = Some (generations w'))
  ∧ ((∀ j s, ds !! j = Some s → kept generate_output j s) →
     length (generations w) = length ds
     ∧ (checkpoint_interval ≤ length ds →
        files w !! checkpoint
        = Some (take (checkpoint_interval * (length ds `div` checkpoint_interval))
                  (generations w)))
     ∧ (length ds = 150 →
        ∃ records, files w !! checkpoint = Some records ∧ length records = 100)).
Proof.
  intros Hrun.
  assert (Hpart3 : (∀ j s, ds !! j = Some s → kept generate_output j s) →
    length (generations w) = length ds
    ∧ (checkpoint_interval ≤ length ds →
       files w !! checkpoint
       = Some (take (checkpoint_interval * (length ds `div` checkpoint_interval))
                 (generations w)))).
  { intros Hall. split.
    - destruct (generate_loop_generations _ _ _ _ Hrun) as (ext & -> & _ & Hlen).
      simpl. apply Hlen. intros j s Hj. by apply Hall.
    - intros Hn.
      pose proof (last_boundary_bounds (length ds)) as [Hle Hlt].
      set (m := checkpoint_interval * (length ds `div` checkpoint_interval)) in *.
      assert (Hm : 0 < m) by (unfold checkpoint_interval in *; lia).
      destruct (lookup_lt_is_Some_2 ds (m - 1)) as [s Hs]; [lia|].
      destruct (checkpoint_at_last_boundary ds _ w Hrun Hn)
        as (w' & Hpre & Hpost & Hf).
      { exists s. split; [done|]. by apply Hall. }
      fold m in Hpre, Hpost, Hf. rewrite Hf. f_equal.
      destruct (generate_loop_generations _ _ _ _ Hpre) as (ext & E & _ & Hlen).
      simpl in E.
      destruct (generate_loop_generations _ _ _ _ Hpost) as (ext' & -> & _).
      rewrite take_app_length'; [done|].
      rewrite E, Hlen, length_take; [lia|].
      intros j s' Hj. apply lookup_take_Some in Hj as [Hj _]. by apply Hall. }
  split_and!.
  - intros Hn. rewrite (generate_loop_files _ _ _ _ Hrun); [done|].
    intros j Hj. unfold checkpoint_interval in *.
    rewrite Nat.mod_small; lia.
  - intros Hn Hs.
    destruct (checkpoint_at_last_boundary ds _ w Hrun Hn Hs) as (w' & ? & _ & ?).
    by exists w'.
  - intros Hall. destruct (Hpart3 Hall) as [Hlen Hcp].
    split_and!; [done..|]. intros H150.
    eexists. split; [apply Hcp; unfold checkpoint_interval; lia|].
    rewrite length_take, Hlen, H150. done.
Qed.

End Generating.

(** ** Example runs of the generation loop *)

Lemma skipped_sample_is_excluded_witness :
  (find_prompt (asked "crash") = None
   ∨ (∃ prompt e, find_prompt (asked "crash") = Some prompt
                  ∧ echo_model (0 + length [asked "1+1"]) prompt = Raise e))
  ∧ ∃ ev,
      (ev = SkippedMalformed (asked "crash")
       ∨ ∃ prompt e, ev = GenerationFailed prompt e)
      ∧ (∀ w0, generate_step example_args echo_model keep_text no_parse
                 (0 + length [asked "1+1"]) (asked "crash") w0
               = Ok {| generations := generations w0; files := files w0;
                       log := log w0 ++ [ev] |})
      ∧ example_loop 0 ([asked "1+1"] ++ asked "crash" :: [asked "2+2"])
          initial_world
        = (w1 ← example_loop 0 [asked "1+1"] initial_world ;
           example_loop (S (0 + length [asked "1+1"])) [asked "2+2"]
             {| generations := generations w1; files := files w1;
                log := log w1 ++ [ev] |})
      ∧ (∀ w', example_loop 0 ([asked "1+1"] ++ asked "crash" :: [asked "2+2"])
                 initial_world = Ok w' →
           ∃ w1 later,
             example_loop 0 [asked "1+1"] initial_world = Ok w1
             ∧ generations w' = generations w1 ++ later
             ∧ length later ≤ length [asked "2+2"]).
Proof.
  assert (H : find_prompt (asked "crash") = None
    ∨ (∃ prompt e, find_prompt (asked "crash") = Some prompt
                   ∧ echo_model (0 + length [asked "1+1"]) prompt = Raise e)).
  { right. exists "crash", (Exception "out of memory"). split; reflexivity. }
  split; [exact H|].
  exact (skipped_sample_is_excluded example_args echo_model keep_text no_parse
           0 [asked "1+1"] (asked "crash") [asked "2+2"] initial_world H).
Defined.

(** The two kinds of skipped sample leave one generation record out of
    three samples. *)
Example skipped_samples_leave_no_record :
  (generations <$> example_loop 0 [asked "crash"; no_question; asked "1+1"]
                     initial_world)
  = Ok [ {| gen_dataset := "college_math"; question := "1+1"; response := "1+1";
            gen_pred := "1+1"; gt_ans := "2"; gen_correct := None |} ].
Proof. reflexivity. Qed.

Lemma asked_kept j q : q ≠ "" → q ≠ "crash" → kept echo_model j (asked q).
Proof.
  intros Hq Hc. exists q, q. split.
  - unfold find_prompt, asked. simpl.
    rewrite lookup_insert_eq. simpl. rewrite bool_decide_eq_true_2 by done.
    simpl. by rewrite bool_decide_eq_true_2.
  - unfold echo_model. by rewrite decide_False.
Qed.

Lemma checkpoint_at_boundaries_witness :
  ∃ w,
    example_loop 0 (replicate 150 (asked "1+1")) (start_world stale_files) = Ok w
    ∧ (∀ j s, replicate 150 (asked "1+1") !! j = Some s → kept echo_model j s)
    ∧ length (generations w) = 150
    ∧ ∃ records,
        files w !! checkpoint_path example_args = Some records
        ∧ length records = 100.
Proof.
  assert (Hall : ∀ j s, replicate 150 (asked "1+1") !! j = Some s
                        → kept echo_model j s).
  { intros j s Hj. apply lookup_replicate in Hj as [-> _].
    apply asked_kept; discriminate. }
  destruct (example_loop 0 (replicate 150 (asked "1+1")) (start_world stale_files))
    as [w|e] eqn:Hrun; [|vm_compute in Hrun; discriminate].
  exists w. split; [reflexivity|]. split; [exact Hall|].
  destruct (checkpoint_at_boundaries example_args echo_model keep_text no_parse
              stale_files (replicate 150 (asked "1+1")) w Hrun) as (_ & _ & H3).
  destruct (H3 Hall) as (Hlen & _ & H150).
  split; [by rewrite Hlen, length_replicate|].
  apply H150. by rewrite length_replicate.
Defined.

(** A run of ten samples in an output directory that holds an older
    checkpoint of three records leaves that checkpoint in place. *)
Example stale_checkpoint_survives_a_short_run :
  ∃ records,
    stale_files !! checkpoint_path example_args = Some records
    ∧ length records = 3
    ∧ (λ w, (length (generations w), files w !! checkpoint_path example_args))
        <$> example_loop 0 (replicate 10 (asked "1+1")) (start_world stale_files)
      = Ok (10, Some records).
Proof. eexists. split_and!; [reflexivity|reflexivity|vm_compute; reflexivity]. Qed.

(** C8, as stated, fails: when the first sample has no question field,
    the checkpoint written at the 100th sample holds 99 records, both
    after 150 samples have gone through the loop and after 150 samples
    have been kept (151 have gone through the loop). *)
Lemma checkpoint_counts_kept_samples_only :
  (∃ w records,
     length (no_question :: replicate 149 (asked "1+1")) = 150
     ∧ example_loop 0 (no_question :: replicate 149 (asked "1+1")) initial_world
       = Ok w
     ∧ files w !! checkpoint_path example_args = Some records
     ∧ length records = 99)
  ∧ (∃ w records,
       example_loop 0 (no_question :: replicate 150 (asked "1+1")) initial_world
       = Ok w
       ∧ length (generations w) = 150
       ∧ files w !! checkpoint_path example_args = Some records
       ∧ length records = 99).
Proof.
  split.
  - eexists _, _. split_and!.
    + reflexivity.
    + vm_compute. reflexivity.
    + vm_compute. reflexivity.
    + reflexivity.
  - eexists _, _. split_and!.
    + vm_compute. reflexivity.
    + reflexivity.
    + vm_compute. reflexivity.
    + reflexivity.
Qed.

(** When the sample at the 100th position itself is skipped, no
    checkpoint is written at that boundary. *)
Example checkpoint_missed_at_skipped_boundary :
  (λ w, files w !! checkpoint_path example_args)
    <$> example_loop 0 (replicate 99 (asked "1+1") ++ no_question
                        :: replicate 50 (asked "1+1")) initial_world
  = Ok None.
Proof. vm_compute. reflexivity. Qed.

(** * Further properties of the code *)

(** ** Counting in [compute_metrics_fn] *)

Lemma sum_indicator_not_in (l : list string) x :
  x ∉ l → sum_list_with (λ d, if decide (x = d) then 1 else 0) l = 0.
Proof.
  induction l as [|y l IH]; simpl; [done|]. intros H.
  rewrite not_elem_of_cons in H. destruct H as [Hxy Hl].
  rewrite decide_False by done. by rewrite IH.
Qed.

Lemma sum_indicator_in (l : list string) x :
  NoDup l → x ∈ l → sum_list_with (λ d, if decide (x = d) then 1 else 0) l = 1.
Proof.
  induction 1 as [|y l Hy Hnd IH]; simpl; intros Hx.
  - by apply elem_of_nil in Hx.
  - apply elem_of_cons in Hx as [->|Hx].
    + rewrite decide_True by done. by rewrite sum_indicator_not_in.
    + rewrite decide_False by (intros ->; done). by rewrite IH.
Qed.

Lemma sum_count_total (l : list string) rs :
  NoDup l → Forall (λ r, fr_dataset r ∈ l) rs →
  sum_list_with (λ d, count_total d rs) l = length rs.
Proof.
  intros Hnd. induction 1 as [|r rs Hr _ IH].
  - clear Hnd. unfold count_total. induction l as [|d l IHl]; simpl; auto.
  - change (length (r :: rs)) with (1 + length rs).
    rewrite <- IH, <- (sum_indicator_in l (fr_dataset r) Hnd Hr).
    clear. induction l as [|d l IHl]; simpl; [done|].
    rewrite IHl, count_total_cons. case_decide; lia.
Qed.

Lemma sum_count_correct (l : list string) rs :
  NoDup l → Forall (λ r, fr_dataset r ∈ l) rs →
  sum_list_with (λ d, count_correct d rs) l
  = length (filter (λ r, fr_correct r = true) rs).
Proof.
  intros Hnd. induction 1 as [|r rs Hr _ IH].
  - clear Hnd. unfold count_correct. induction l as [|d l IHl]; simpl; auto.
  - rewrite filter_cons.
    assert (Hsplit : sum_list_with (λ d, count_correct d (r :: rs)) l
      = (if fr_correct r then
           sum_list_with (λ d, if decide (fr_dataset r = d) then 1 else 0) l
         else 0)
        + sum_list_with (λ d, count_correct d rs) l).
    { clear. induction l as [|d l IHl]; simpl; [by destruct (fr_correct r)|].
      rewrite IHl, count_correct_cons.
      destruct (fr_correct r); repeat case_decide; try lia; intuition congruence. }
    rewrite Hsplit, IH. destruct (fr_correct r) eqn:Hc.
    + rewrite decide_True by done. rewrite sum_indicator_in by done. done.
    + rewrite decide_False by done. done.
Qed.

Lemma first_seen_covers rs :
  Forall (λ r, fr_dataset r ∈ first_seen (fr_dataset <$> rs)) rs.
Proof.
  apply Forall_forall. intros r Hr. apply elem_of_first_seen.
  apply list_elem_of_fmap. by exists r.
Qed.

Lemma sum_total_expected rs (l : list string) :
  sum_list_with total_of (expected_row rs <$> l)
  = sum_list_with (λ d, count_total d rs) l.
Proof. induction l as [|d l IH]; csimpl; [done|]. by rewrite IH. Qed.

Lemma sum_correct_expected rs (l : list string) :
  sum_list_with correct_of (expected_row rs <$> l)
  = sum_list_with (λ d, count_correct d rs) l.
Proof. induction l as [|d l IH]; csimpl; [done|]. by rewrite IH. Qed.

(** X1. Every decision is counted in exactly one row: over the output of
    [compute_metrics_fn] the totals add up to the number of samples, and
    the correct counts add up to the number of correct decisions. *)
Theorem totals_add_up er k agg_method out :
  compute_metrics_fn er k agg_method = Ok out →
  sum_list_with total_of out = length er
  ∧ ∃ rs, final_results_of er k agg_method = Ok rs
          ∧ sum_list_with correct_of out
            = length (filter (λ r, fr_correct r = true) rs).
Proof.
  intros H. apply compute_metrics_fn_inv in H as (rs & Hrs & H).
  rewrite metrics_of_results_spec in H. inversion H; subst; clear H.
  pose proof (for_each_length _ _ _ Hrs) as Hlen.
  rewrite !sum_list_with_app. simpl. rewrite !Nat.add_0_r. split.
  - rewrite sum_total_expected, <- Hlen.
    apply sum_count_total; [apply NoDup_first_seen|apply first_seen_covers].
  - exists rs. split; [done|]. rewrite sum_correct_expected.
    apply sum_count_correct; [apply NoDup_first_seen|apply first_seen_covers].
Qed.

Lemma totals_add_up_witness :
  compute_metrics_fn two_datasets 1 "pass"
  = Ok [ Metric "B" 3 0 (Q2Qc (0 # 3)); Metric "A" 1 1 (Q2Qc (1 # 1));
         Average (arithmetic_mean [Q2Qc (0 # 3); Q2Qc (1 # 1)]) ]
  ∧ sum_list_with total_of
      [ Metric "B" 3 0 (Q2Qc (0 # 3)); Metric "A" 1 1 (Q2Qc (1 # 1));
        Average (arithmetic_mean [Q2Qc (0 # 3); Q2Qc (1 # 1)]) ]
    = length two_datasets.
Proof.
  split; [vm_compute; reflexivity|].
  apply (totals_add_up two_datasets 1 "pass"). vm_compute; reflexivity.
Defined.

(** ** Bounds on the accuracies *)

Lemma ratio_bounds c t :
  c ≤ t → 0 < t → (0 ≤ Q2Qc (Z.of_nat c # Pos.of_nat t) ≤ 1)%Qc.
Proof.
  intros Hc Ht. unfold Qcle. simpl. rewrite !Qred_correct.
  unfold Qle. simpl.
  assert (Z.pos (Pos.of_nat t) = Z.of_nat t) as ->.
  { rewrite <- (Nat2Pos.id t) at 2 by lia. by rewrite positive_nat_Z. }
  lia.
Qed.

Lemma Q2Qc_inject_Z n : Q2Qc (inject_Z n) = Qc_of_Z n.
Proof. apply Qc_is_canon. simpl. by rewrite Qred_correct. Qed.

Lemma Qc_sum_bounds l :
  Forall (λ a, 0 ≤ a ≤ 1)%Qc l →
  (0 ≤ Qc_sum l ≤ Qc_of_Z (Z.of_nat (length l)))%Qc.
Proof.
  induction 1 as [|a l [Ha0 Ha1] _ [IH0 IH1]]; simpl.
  - split; discriminate.
  - split.
    + by apply Qcplus_nonneg_nonneg.
    + rewrite Nat2Z.inj_succ, <- Z.add_1_l, Z2Qc_inj_add, Z2Qc_inj_1.
      by apply Qcplus_le_compat.
Qed.

Lemma arithmetic_mean_bounds l :
  Forall (λ a, 0 ≤ a ≤ 1)%Qc l → (0 ≤ arithmetic_mean l ≤ 1)%Qc.
Proof.
  intros H. destruct l as [|a l]; [split; [reflexivity|discriminate]|].
  destruct (Qc_sum_bounds _ H) as [H0 H1]. unfold arithmetic_mean.
  rewrite Q2Qc_inject_Z.
  set (n := Qc_of_Z (Z.of_nat (length (a :: l)))) in *.
  assert (Hn : (0 < n)%Qc).
  { subst n. rewrite <- Z2Qc_inj_0. apply (proj1 (Z2Qc_inj_lt _ _)).
    simpl length. lia. }
  assert (Hn' : n ≠ 0%Qc) by (intros E; rewrite E in Hn; by apply Qclt_not_eq in Hn).
  unfold Qcdiv. split.
  - apply Qcmult_nonneg_nonneg; [done|]. by apply Qclt_le_weak, Qcinv_pos.
  - apply (Qcmult_le_mono_pos_r _ _ n Hn).
    rewrite <- Qcmult_assoc, (Qcmult_comm (/ n)), Qcmult_inv_r by done.
    by rewrite Qcmult_1_r, Qcmult_1_l.
Qed.

(** X2. Every accuracy that [compute_metrics_fn] reports, the average
    included, lies between 0 and 1. *)
Theorem accuracies_between_0_and_1 er k agg_method out :
  compute_metrics_fn er k agg_method = Ok out →
  Forall (λ m, 0 ≤ accuracy_of m ≤ 1)%Qc out.
Proof.
  intros H. apply compute_metrics_fn_inv in H as (rs & _ & H).
  rewrite metrics_of_results_spec in H. inversion H; subst; clear H.
  assert (Hrows : Forall (λ m, 0 ≤ accuracy_of m ≤ 1)%Qc
            (expected_row rs <$> first_seen (fr_dataset <$> rs))).
  { apply Forall_fmap, Forall_forall. intros d Hd. simpl.
    rewrite elem_of_first_seen in Hd.
    apply ratio_bounds; [apply count_correct_le|by apply count_total_pos]. }
  apply Forall_app. split; [done|]. constructor; [|constructor]. simpl.
  apply arithmetic_mean_bounds. by apply Forall_fmap.
Qed.

Lemma accuracies_between_0_and_1_witness :
  compute_metrics_fn two_datasets 1 "pass"
  = Ok [ Metric "B" 3 0 (Q2Qc (0 # 3)); Metric "A" 1 1 (Q2Qc (1 # 1));
         Average (arithmetic_mean [Q2Qc (0 # 3); Q2Qc (1 # 1)]) ]
  ∧ Forall (λ m, 0 ≤ accuracy_of m ≤ 1)%Qc
      [ Metric "B" 3 0 (Q2Qc (0 # 3)); Metric "A" 1 1 (Q2Qc (1 # 1));
        Average (arithmetic_mean [Q2Qc (0 # 3); Q2Qc (1 # 1)]) ].
Proof.
  split; [vm_compute; reflexivity|].
  apply (accuracies_between_0_and_1 two_datasets 1 "pass").
  vm_compute; reflexivity.
Defined.

(** ** What [compute_metrics_fn] reads of its input *)

Lemma slice_to_ge {A} (k : Z) (l : list A) :
  (Z.of_nat (length l) ≤ k)%Z → slice_to k l = l.
Proof.
  intros H. unfold slice_to. rewrite decide_True by lia.
  apply take_ge. lia.
Qed.

Lemma final_result_of_slice k k' agg_method s s' :
  dataset s = dataset s' →
  slice_to k (generation s) = slice_to k' (generation s') →
  final_result_of k agg_method s = final_result_of k' agg_method s'.
Proof.
  intros Hd Hs. unfold final_result_of. rewrite Hs.
  destruct (agg_fn_of agg_method) as [f|]; simpl; [|done]. f_equal.
  apply list_fmap_ext. intros i g _. unfold eval_sample_of. by rewrite Hd.
Qed.

(** X3. [compute_metrics_fn] reads of each sample only its dataset name
    and the slice [generation[:k]]: inputs that agree on these give the same
    result, so records after the first [k] have no influence, and every [k]
    at least as large as the generation lists gives the result of the whole
    lists. *)
Theorem only_the_first_k_records_count er er' k k' agg_method :
  (Forall2 (λ s s', dataset s = dataset s'
                    ∧ slice_to k (generation s) = slice_to k' (generation s'))
     er er' →
   compute_metrics_fn er k agg_method = compute_metrics_fn er' k' agg_method)
  ∧ (Forall (λ s, Z.of_nat (length (generation s)) ≤ k
                  ∧ Z.of_nat (length (generation s)) ≤ k')%Z er →
     compute_metrics_fn er k agg_method = compute_metrics_fn er k' agg_method).
Proof.
  assert (Hmain : ∀ er er' k k',
    Forall2 (λ s s', dataset s = dataset s'
                     ∧ slice_to k (generation s) = slice_to k' (generation s'))
      er er' →
    compute_metrics_fn er k agg_method = compute_metrics_fn er' k' agg_method).
  { clear. intros er er' k k' H. unfold compute_metrics_fn, final_results_of.
    f_equal. induction H as [|s s' er er' [Hd Hs] _ IH]; simpl; [done|].
    by rewrite (final_result_of_slice k k' _ s s' Hd Hs), IH. }
  split; [apply Hmain|].
  intros H. apply Hmain. induction H as [|s er [H1 H2] _ IH]; constructor; [|done].
  split; [done|]. by rewrite !slice_to_ge.
Qed.

Lemma only_the_first_k_records_count_witness :
  (Forall2 (λ s s', dataset s = dataset s'
                    ∧ slice_to 1 (generation s) = slice_to 1 (generation s'))
     [ {| dataset := "A";
          generation := [ {| pred := "1"; step_rewards := None; correct := true |};
                          {| pred := "2"; step_rewards := None; correct := false |} ] |} ]
     [ single "A" "1" true ]
   ∧ compute_metrics_fn
       [ {| dataset := "A";
            generation := [ {| pred := "1"; step_rewards := None; correct := true |};
                            {| pred := "2"; step_rewards := None; correct := false |} ] |} ]
       1 "majority_vote"
     = compute_metrics_fn [ single "A" "1" true ] 1 "majority_vote")
  ∧ (Forall (λ s, Z.of_nat (length (generation s)) ≤ 1
                  ∧ Z.of_nat (length (generation s)) ≤ 5)%Z two_datasets
     ∧ compute_metrics_fn two_datasets 1 "pass"
       = compute_metrics_fn two_datasets 5 "pass").
Proof.
  assert (H1 : Forall2 (λ s s', dataset s = dataset s'
                    ∧ slice_to 1 (generation s) = slice_to 1 (generation s'))
     [ {| dataset := "A";
          generation := [ {| pred := "1"; step_rewards := None; correct := true |};
                          {| pred := "2"; step_rewards := None; correct := false |} ] |} ]
     [ single "A" "1" true ]) by (repeat constructor).
  assert (H2 : Forall (λ s, Z.of_nat (length (generation s)) ≤ 1
                  ∧ Z.of_nat (length (generation s)) ≤ 5)%Z two_datasets)
    by (repeat constructor; simpl; lia).
  split; (split; [assumption|]).
  - by apply (only_the_first_k_records_count _ _ 1 1 "majority_vote").
  - by apply (only_the_first_k_records_count two_datasets two_datasets 1 5 "pass").
Defined.

(** X4. The aggregation method is looked up once per sample: on an empty
    input [compute_metrics_fn] returns the single row [Average 0] for every
    method name, registered or not, while on a non-empty input a name that
    is not in the registry raises [KeyError]. *)
Theorem unknown_method_raises_unless_empty k agg_method :
  compute_metrics_fn [] k agg_method = Ok [Average 0%Qc]
  ∧ ∀ s er, AGG_FN_MAP !! agg_method = None →
            compute_metrics_fn (s :: er) k agg_method = Raise (KeyError agg_method).
Proof.
  split; [done|]. intros s er H.
  unfold compute_metrics_fn, final_results_of. simpl.
  unfold final_result_of, agg_fn_of. by rewrite H.
Qed.

Lemma unknown_method_raises_unless_empty_witness :
  AGG_FN_MAP !! "best_of_n" = None
  ∧ compute_metrics_fn (single "A" "1" true :: []) 1 "best_of_n"
    = Raise (KeyError "best_of_n").
Proof.
  split; [reflexivity|].
  by apply (unknown_method_raises_unless_empty 1 "best_of_n").
Defined.

(** ** The prompt of a sample *)

Lemma truthy_Some_true v : truthy (Some v) = true ↔ v ≠ "".
Proof. simpl. by rewrite bool_decide_eq_true. Qed.

Lemma truthy_false (sample : Sample) key :
  truthy (sample !! key) = false → blank sample key.
Proof.
  unfold blank. destruct (sample !! key) as [v|]; [|by left]. simpl.
  rewrite bool_decide_eq_false. intros H. right. f_equal.
  by destruct (decide (v = "")).
Qed.

Lemma next_truthy_spec (sample : Sample) keys :
  match next_truthy sample keys with
  | Some p =>
      p ≠ "" ∧ ∃ before key after,
        keys = before ++ key :: after
        ∧ sample !! key = Some p
        ∧ Forall (blank sample) before
  | None => Forall (blank sample) keys
  end.
Proof.
  induction keys as [|k keys IH]; simpl; [done|].
  destruct (truthy (sample !! k)) eqn:Ht.
  - destruct (sample !! k) as [v|] eqn:Hk; [|done].
    apply truthy_Some_true in Ht. split; [done|].
    by exists [], k, keys.
  - apply truthy_false in Ht.
    destruct (next_truthy sample keys) as [p|].
    + destruct IH as (Hp & before & key & after & -> & Hkey & Hb).
      split; [done|]. exists (k :: before), key, after.
      split_and!; [done..|]. by constructor.
    + by constructor.
Qed.

Lemma find_prompt_nonempty (sample : Sample) p :
  find_prompt sample = Some p → p ≠ "".
Proof.
  unfold find_prompt.
  pose proof (next_truthy_spec sample question_keys) as H.
  destruct (next_truthy sample question_keys) as [q|]; [|done].
  destruct H as [Hq _]. apply truthy_Some_true in Hq as Ht. rewrite Ht.
  by intros [= <-].
Qed.

(** X5. The prompt of a sample is the value of the first of the fields
    [question], [prompt], [input], [problem] that is present and not empty,
    so a prompt is never the empty string; the sample has no prompt exactly
    when all four fields are missing or empty. *)
Theorem prompt_is_first_nonempty_field (sample : Sample) :
  match find_prompt sample with
  | Some p =>
      p ≠ "" ∧ ∃ before key after,
        question_keys = before ++ key :: after
        ∧ sample !! key = Some p
        ∧ Forall (blank sample) before
  | None => Forall (blank sample) question_keys
  end.
Proof.
  unfold find_prompt.
  pose proof (next_truthy_spec sample question_keys) as H.
  destruct (next_truthy sample question_keys) as [p|]; [|done].
  destruct H as [Hp H]. apply truthy_Some_true in Hp as Ht. rewrite Ht.
  by split.
Qed.

(** A sample whose [question] is empty falls back on its [input]. *)
Example prompt_falls_back_on_later_field :
  find_prompt {[ "question" := ""; "input" := "2+2"; "problem" := "3+3" ]}
  = Some "2+2".
Proof. reflexivity. Qed.

(** ** The cap, again *)

(** X6. The capped dataset is always a prefix of the loaded one, in the
    loaded order, and its length is the whole length for a cap of 0, the
    smaller of cap and length for a positive cap, and the length less the
    size of the cap (or 0) for a negative one. *)
Theorem cap_keeps_a_prefix (n : Z) (datasets : list Sample) :
  apply_cap n datasets `prefix_of` datasets
  ∧ Z.of_nat (length (apply_cap n datasets))
    = (if decide (n = 0) then Z.of_nat (length datasets)
       else if decide (0 < n) then Z.min n (Z.of_nat (length datasets))
       else Z.max 0 (Z.of_nat (length datasets) + n))%Z.
Proof.
  unfold apply_cap, slice_to. split.
  - repeat case_decide; try done; apply prefix_take.
  - repeat case_decide; try lia; rewrite length_take; lia.
Qed.

(** ** The grading loop, again *)

Lemma grade_idempotent math_equal g :
  (grade math_equal (grade math_equal g).1).1 = (grade math_equal g).1.
Proof. unfold grade. by destruct (math_equal (gen_pred g) (gt_ans g)) eqn:E; simpl; rewrite E. Qed.

Lemma grade_log_length math_equal g :
  length (grade math_equal g).2
  = if raised (math_equal (gen_pred g) (gt_ans g)) then 1 else 0.
Proof. unfold grade. by destruct (math_equal (gen_pred g) (gt_ans g)). Qed.

(** X7. The grading loop touches no file, gives every record a flag that
    depends only on the record's prediction and ground truth (an earlier
    flag is overwritten), so that grading twice gives the same records as
    grading once, and it prints one line for each record on which the
    grader raised. *)
Theorem grading_is_idempotent math_equal w :
  files (evaluate math_equal w) = files w
  ∧ Forall flagged (generations (evaluate math_equal w))
  ∧ generations (evaluate math_equal (evaluate math_equal w))
    = generations (evaluate math_equal w)
  ∧ length (log (evaluate math_equal w))
    = length (log w)
      + length (filter (λ g, raised (math_equal (gen_pred g) (gt_ans g)) = true)
                  (generations w)).
Proof.
  split_and!.
  - done.
  - simpl. apply Forall_fmap, Forall_forall. intros g _. simpl.
    destruct (grade_correct math_equal g) as [b ->]. by eexists.
  - simpl. rewrite <- list_fmap_compose. apply list_fmap_ext.
    intros i g _. simpl. apply grade_idempotent.
  - simpl. rewrite length_app. f_equal.
    induction (generations w) as [|g gs IH]; [done|].
    csimpl. rewrite length_app, IH, filter_cons, grade_log_length.
    by destruct (raised (math_equal (gen_pred g) (gt_ans g))).
Qed.

(** X8. [eval_results] can be built exactly when every record has its
    flag: it then has one entry per record, each with a single generation,
    and otherwise the construction raises [KeyError] for ["correct"]. *)
Theorem eval_results_need_flags (gens : list Generation) :
  (Forall flagged gens →
   ∃ ers, for_each eval_result_of gens = Ok ers
          ∧ length ers = length gens
          ∧ Forall (λ er, length (generation er) = 1) ers
          ∧ dataset <$> ers = gen_dataset <$> gens)
  ∧ (¬ Forall flagged gens →
     for_each eval_result_of gens = Raise (KeyError "correct")).
Proof.
  split.
  - induction 1 as [|g gs [b Hb] _ (ers & E & Hlen & Hone & Hds)]; simpl.
    + by exists [].
    + rewrite E. unfold eval_result_of. rewrite Hb. simpl.
      eexists. split; [done|].
      split_and!; csimpl; [by rewrite Hlen|by constructor|by rewrite Hds].
  - induction gens as [|g gs IH]; intros H; [by destruct H|].
    simpl. destruct (gen_correct g) as [b|] eqn:Hb.
    + assert (eval_result_of g = Ok (single (gen_dataset g) (gen_pred g) b)) as ->
        by (unfold eval_result_of; by rewrite Hb).
      rewrite IH; [done|]. intros Hgs. apply H. constructor; [|done].
      unfold flagged. rewrite Hb. by eexists.
    + assert (eval_result_of g = Raise (KeyError "correct")) as ->
        by (unfold eval_result_of; by rewrite Hb).
      done.
Qed.

Lemma eval_results_need_flags_witness :
  (Forall flagged [set_correct (generated "1+1" "2" "2") true]
   ∧ ∃ ers, for_each eval_result_of [set_correct (generated "1+1" "2" "2") true]
            = Ok ers
            ∧ length ers = length [set_correct (generated "1+1" "2" "2") true]
            ∧ Forall (λ er, length (generation er) = 1) ers
            ∧ dataset <$> ers
              = gen_dataset <$> [set_correct (generated "1+1" "2" "2") true])
  ∧ (¬ Forall flagged [generated "1+1" "2" "2"]
     ∧ for_each eval_result_of [generated "1+1" "2" "2"]
       = Raise (KeyError "correct")).
Proof.
  pose proof (eval_results_need_flags [set_correct (generated "1+1" "2" "2") true])
    as [H1 _].
  pose proof (eval_results_need_flags [generated "1+1" "2" "2"]) as [_ H2].
  assert (Hf : Forall flagged [set_correct (generated "1+1" "2" "2") true])
    by (repeat constructor; by eexists).
  assert (Hn : ¬ Forall flagged [generated "1+1" "2" "2"]).
  { intros H. apply Forall_cons in H as [[b Hb] _]. discriminate Hb. }
  split; (split; [assumption|]); [by apply H1|by apply H2].
Defined.

(** ** The generation loop, again *)

Section Running.

Variable args : Args.
Variable generate_output : nat → string → result string.
Variable extract_and_strip : string → string → result string.
Variable parse_ground_truth : Sample → string → result (list string).

Local Abbreviation step :=
  (generate_step args generate_output extract_and_strip parse_ground_truth).
Local Abbreviation loop :=
  (generate_loop args generate_output extract_and_strip parse_ground_truth).
Local Abbreviation truth := (ground_truth args parse_ground_truth).
Local Abbreviation from_samples :=
  (made_from args generate_output extract_and_strip parse_ground_truth).

(** The step on a kept sample, in full. *)
Lemma generate_step_kept idx s w prompt text :
  find_prompt s = Some prompt →
  generate_output idx prompt = Ok text →
  step idx s w
  = (p ← extract_and_strip text (data_name args) ;
     gt ← truth s ;
     let gens := generations w ++
       [ {| gen_dataset := data_name args; question := prompt;
            response := text; gen_pred := p; gt_ans := gt;
            gen_correct := None |} ] in
     if decide ((idx + 1) `mod` checkpoint_interval = 0) then
       Ok {| generations := gens;
             files := save_jsonl gens (checkpoint_path args) (files w);
             log := log w ++ [CheckpointSaved (idx + 1)] |}
     else Ok {| generations := gens; files := files w; log := log w |}).
Proof. intros Hp Hg. unfold generate_step. by rewrite Hp, Hg. Qed.

(** X9. Extraction is not guarded: when the extractor, or the parser of
    the ground truth, raises on a sample that has a prompt and an answer
    from the model, the whole loop raises that exception, whatever
    samples follow. *)
Theorem extraction_failure_is_fatal idx before s after w w1 prompt text e :
  loop idx before w = Ok w1 →
  find_prompt s = Some prompt →
  generate_output (idx + length before) prompt = Ok text →
  extract_and_strip text (data_name args) = Raise e
  ∨ (∃ p, extract_and_strip text (data_name args) = Ok p ∧ truth s = Raise e) →
  loop idx (before ++ s :: after) w = Raise e.
Proof.
  intros Hpre Hp Hg He. rewrite generate_loop_app, Hpre. simpl.
  rewrite (generate_step_kept _ _ _ _ _ Hp Hg).
  destruct He as [->|(p & -> & ->)]; done.
Qed.

Lemma generate_step_record idx s w w' :
  step idx s w = Ok w' →
  generations w' = generations w
  ∨ ∃ g, generations w' = generations w ++ [g] ∧ from_samples idx [s] g.
Proof.
  intros H. destruct (find_prompt s) as [prompt|] eqn:Hp.
  2:{ left. unfold generate_step in H. rewrite Hp in H. by inversion H. }
  destruct (generate_output idx prompt) as [text|e] eqn:Hg.
  2:{ left. unfold generate_step in H. rewrite Hp, Hg in H. by inversion H. }
  right. rewrite (generate_step_kept _ _ _ _ _ Hp Hg) in H.
  destruct (extract_and_strip text (data_name args)) as [p|] eqn:He;
    simpl in H; [|done].
  destruct (truth s) as [gt|] eqn:Ht; simpl in H; [|done].
  exists {| gen_dataset := data_name args; question := prompt;
            response := text; gen_pred := p; gt_ans := gt;
            gen_correct := None |}.
  split.
  - destruct (decide ((idx + 1) `mod` checkpoint_interval = 0));
      by inversion H.
  - exists 0, s. simpl. rewrite Nat.add_0_r. by split_and!.
Qed.

Lemma made_from_cons idx s ds g :
  from_samples (S idx) ds g → from_samples idx (s :: ds) g.
Proof.
  intros (i & s' & Hi & H). exists (S i), s'. split; [done|].
  by replace (idx + S i) with (S idx + i) by lia.
Qed.

Lemma made_from_head idx s ds g : from_samples idx [s] g → from_samples idx (s :: ds) g.
Proof.
  intros (i & s' & Hi & H). destruct i as [|i]; [|done].
  exists 0, s'. by split.
Qed.

Lemma generate_loop_added idx ds w w' :
  loop idx ds w = Ok w' →
  ∃ added,
    generations w' = generations w ++ added
    ∧ length added ≤ length ds
    ∧ Forall (λ g, from_samples idx ds g ∧ question g ≠ "") added.
Proof.
  revert idx w. induction ds as [|s ds IH]; intros idx w H; simpl in H.
  - inversion H; subst. exists []. by rewrite app_nil_r.
  - destruct (step idx s w) as [w1|] eqn:Hs; simpl in H; [|done].
    destruct (IH _ _ H) as (added & E & Hlen & Hall).
    assert (Hall' : Forall (λ g, from_samples idx (s :: ds) g ∧ question g ≠ "") added).
    { eapply Forall_impl; [exact Hall|]. intros g [Hg Hq]. split; [|done].
      by apply made_from_cons. }
    apply generate_step_record in Hs as [Hsame|(g & Hg & Hmade)].
    + exists added. rewrite E, Hsame. split_and!; [done|simpl; lia|done].
    + exists (g :: added). rewrite E, Hg, <- app_assoc.
      split_and!; [done|simpl; lia|]. constructor; [|done].
      split; [by apply made_from_head|].
      destruct Hmade as (i & s' & _ & Hp & _).
      by eapply find_prompt_nonempty.
Qed.

(** X10. The generation list grows in the order of the samples, and every
    record that the loop adds comes from one of the samples: its question is
    that sample's prompt, which is not empty, its response is the model's
    answer to it, its prediction is extracted from the response, and it
    carries the dataset name of the run and no correctness flag yet. *)
Theorem generation_records_come_from_samples idx ds w w' :
  generate_loop args generate_output extract_and_strip parse_ground_truth
    idx ds w = Ok w' →
  ∃ added,
    generations w' = generations w ++ added
    ∧ length added ≤ length ds
    ∧ Forall (λ g, made_from args generate_output extract_and_strip
                     parse_ground_truth idx ds g
                   ∧ question g ≠ "") added.
Proof. apply generate_loop_added. Qed.

Lemma generate_loop_checkpoint idx ds w w' :
  loop idx ds w = Ok w' →
  (∀ path, path ≠ checkpoint_path args → files w' !! path = files w !! path)
  ∧ (files w' !! checkpoint_path args = files w !! checkpoint_path args
     ∨ ∃ records,
         files w' !! checkpoint_path args = Some records
         ∧ records `prefix_of` generations w'
         ∧ generations w `prefix_of` records).
Proof.
  revert idx w. induction ds as [|s ds IH]; intros idx w H; simpl in H.
  - inversion H; subst. split; [done|by left].
  - destruct (step idx s w) as [w1|] eqn:Hs; simpl in H; [|done].
    destruct (IH _ _ H) as [Hother Hcp].
    destruct (generate_loop_generations _ _ _ _ _ _ _ _ H) as (ext & E & _).
    apply generate_step_inv in Hs
      as [(_ & Hg & Hf)|(_ & [g Hg] & Hf)].
    + rewrite Hf, Hg in *. split; [done|].
      destruct Hcp as [Hcp|(records & ? & ? & ?)]; [by left|].
      right. by exists records.
    + split.
      * intros path Hpath. rewrite (Hother path Hpath), Hf.
        case_decide; [|done]. by rewrite lookup_insert_ne.
      * destruct Hcp as [Hcp|(records & Hr & Hpre & Hpost)].
        -- rewrite Hcp, Hf. case_decide; [|by left].
           right. exists (generations w1). rewrite lookup_insert_eq.
           split_and!; [done| |].
           ++ rewrite E. by apply prefix_app_r.
           ++ rewrite Hg. by apply prefix_app_r.
        -- right. exists records. split_and!; [done..|].
           etrans; [|exact Hpost]. rewrite Hg. by apply prefix_app_r.
Qed.

(** X11. The generation loop writes to the checkpoint path only, and what
    the checkpoint file holds after a run is either what it held before or
    a prefix of the final generation list that contains all the records the
    list had before the run. *)
Theorem checkpoint_is_a_prefix idx ds w w' :
  generate_loop args generate_output extract_and_strip parse_ground_truth
    idx ds w = Ok w' →
  (∀ path, path ≠ checkpoint_path args → files w' !! path = files w !! path)
  ∧ (files w' !! checkpoint_path args = files w !! checkpoint_path args
     ∨ ∃ records,
         files w' !! checkpoint_path args = Some records
         ∧ records `prefix_of` generations w'
         ∧ generations w `prefix_of` records).
Proof. apply generate_loop_checkpoint. Qed.

(** When no sample is kept the loop changes nothing but the log. *)
Lemma generate_loop_none_kept idx ds w :
  (∀ i s, ds !! i = Some s → ¬ kept generate_output (idx + i) s) →
  ∃ w', loop idx ds w = Ok w'
        ∧ generations w' = generations w ∧ files w' = files w.
Proof.
  revert idx w. induction ds as [|s ds IH]; intros idx w H; simpl.
  - by exists w.
  - assert (Hs : ∃ w1, step idx s w = Ok w1
                       ∧ generations w1 = generations w ∧ files w1 = files w).
    { specialize (H 0 s eq_refl). rewrite Nat.add_0_r in H.
      unfold generate_step.
      destruct (find_prompt s) as [prompt|] eqn:Hp; [|by eexists].
      destruct (generate_output idx prompt) as [text|e] eqn:Hg; [|by eexists].
      exfalso. apply H. by exists prompt, text. }
    destruct Hs as (w1 & -> & Hg & Hf). simpl.
    destruct (IH (S idx) w1) as (w' & -> & Hg' & Hf').
    { intros i s' Hi. replace (S idx + i) with (idx + S i) by lia.
      by apply H. }
    exists w'. by rewrite Hg', Hf', Hg, Hf.
Qed.

End Running.

Lemma extraction_failure_is_fatal_witness :
  (generate_loop example_args echo_model strict_extract no_parse 0
     [asked "1+1"] initial_world
   = Ok {| generations := [echoed "1+1"]; files := ∅; log := [] |}
   ∧ find_prompt (asked "garbage") = Some "garbage"
   ∧ echo_model (0 + length [asked "1+1"]) "garbage" = Ok "garbage"
   ∧ (strict_extract "garbage" (data_name example_args)
      = Raise (Exception "no answer found")
      ∨ ∃ p, strict_extract "garbage" (data_name example_args) = Ok p
             ∧ ground_truth example_args no_parse (asked "garbage")
               = Raise (Exception "no answer found")))
  ∧ generate_loop example_args echo_model strict_extract no_parse 0
      ([asked "1+1"] ++ asked "garbage" :: [asked "2+2"]) initial_world
    = Raise (Exception "no answer found").
Proof.
  assert (H : strict_extract "garbage" (data_name example_args)
      = Raise (Exception "no answer found")
      ∨ ∃ p, strict_extract "garbage" (data_name example_args) = Ok p
             ∧ ground_truth example_args no_parse (asked "garbage")
               = Raise (Exception "no answer found")) by (left; reflexivity).
  split; [split_and!; [reflexivity..|exact H]|].
  by apply (extraction_failure_is_fatal example_args echo_model strict_extract
              no_parse 0 [asked "1+1"] (asked "garbage") [asked "2+2"]
              initial_world
              {| generations := [echoed "1+1"]; files := ∅; log := [] |}
              "garbage" "garbage" (Exception "no answer found")).
Defined.

Lemma generation_records_come_from_samples_witness :
  example_loop 0 [no_question; asked "1+1"] initial_world
  = Ok {| generations := [echoed "1+1"]; files := ∅;
          log := [SkippedMalformed no_question] |}
  ∧ ∃ added,
      [echoed "1+1"] = generations initial_world ++ added
      ∧ length added ≤ length [no_question; asked "1+1"]
      ∧ Forall (λ g, made_from example_args echo_model keep_text no_parse 0
                       [no_question; asked "1+1"] g
                     ∧ question g ≠ "") added.
Proof.
  split; [reflexivity|].
  by apply (generation_records_come_from_samples example_args echo_model
              keep_text no_parse 0 [no_question; asked "1+1"] initial_world
              {| generations := [echoed "1+1"]; files := ∅;
                 log := [SkippedMalformed no_question] |}).
Defined.

Lemma checkpoint_is_a_prefix_witness :
  ∃ w',
    example_loop 0 (no_question :: replicate 120 (asked "1+1")) initial_world
    = Ok w'
    ∧ (∀ path, path ≠ checkpoint_path example_args →
         files w' !! path = files initial_world !! path)
    ∧ (files w' !! checkpoint_path example_args
       = files initial_world !! checkpoint_path example_args
       ∨ ∃ records,
           files w' !! checkpoint_path example_args = Some records
           ∧ records `prefix_of` generations w'
           ∧ generations initial_world `prefix_of` records).
Proof.
  destruct (example_loop 0 (no_question :: replicate 120 (asked "1+1"))
              initial_world) as [w'|e] eqn:Hrun;
    [|vm_compute in Hrun; discriminate].
  exists w'. split; [reflexivity|].
  by apply (checkpoint_is_a_prefix example_args echo_model keep_text no_parse
              0 (no_question :: replicate 120 (asked "1+1")) initial_world w').
Defined.

(** ** The script as a whole *)

Lemma append_inj_r (d a b : string) : d +:+ a = d +:+ b → a = b.
Proof. induction d as [|c d IH]; simpl; [done|]. intros [= H]. auto. Qed.

Lemma path_join_inj dir a b : path_join dir a = path_join dir b → a = b.
Proof.
  unfold path_join. intros H. apply append_inj_r in H. by apply append_inj_r in H.
Qed.

Lemma single_decision agg_method d p c :
  agg_method = "pass" ∨ agg_method = "majority_vote" →
  final_result_of 1 agg_method (single d p c)
  = Ok {| fr_dataset := d; fr_ans := Some p; fr_correct := c |}.
Proof. by intros [-> | ->]. Qed.

Lemma length_filter_fmap {A B} (f : A → B) (P : B → Prop)
    `{∀ x, Decision (P x)} (l : list A) :
  length (filter P (f <$> l)) = length (filter (λ x, P (f x)) l).
Proof.
  induction l as [|x l IH]; [done|].
  rewrite fmap_cons, !filter_cons. case_decide; simpl; by rewrite IH.
Qed.

Lemma first_seen_const d (l : list string) :
  l ≠ [] → Forall (λ x, x = d) l → first_seen l = [d].
Proof.
  intros Hne H. induction H as [|x l -> Hl IH]; [done|]. simpl.
  destruct l as [|y l]; [done|]. rewrite IH by done.
  by rewrite filter_cons, decide_False by (intros ?; done).
Qed.

Lemma count_total_all d rs :
  Forall (λ r, fr_dataset r = d) rs → count_total d rs = length rs.
Proof.
  induction 1 as [|r rs Hr _ IH]; [done|].
  rewrite count_total_cons, decide_True by done. simpl. by rewrite IH.
Qed.

Lemma count_correct_all d rs :
  Forall (λ r, fr_dataset r = d) rs →
  count_correct d rs = length (filter (λ r, fr_correct r = true) rs).
Proof.
  induction 1 as [|r rs Hr _ IH]; [done|].
  rewrite count_correct_cons, filter_cons.
  destruct (fr_correct r) eqn:Hc.
  - rewrite !decide_True by done. simpl. by rewrite IH.
  - rewrite !decide_False by (try intros [_ ?]; done). done.
Qed.

Lemma arithmetic_mean_singleton a : arithmetic_mean [a] = a.
Proof.
  unfold arithmetic_mean. simpl.
  replace (Q2Qc (inject_Z 1)) with 1%Qc by by apply Qc_is_canon.
  rewrite Qcplus_0_r. unfold Qcdiv.
  replace (/ 1)%Qc with 1%Qc by by apply Qc_is_canon.
  apply Qcmult_1_r.
Qed.

(** The metrics of decisions that all belong to one dataset. *)
Lemma metrics_of_one_dataset d rs :
  Forall (λ r, fr_dataset r = d) rs →
  metrics_of_results rs
  = Ok (one_dataset_metrics d (length rs)
          (length (filter (λ r, fr_correct r = true) rs))).
Proof.
  intros H. rewrite metrics_of_results_spec.
  destruct rs as [|r rs]; [done|].
  rewrite (first_seen_const d) by (done || by apply Forall_fmap).
  rewrite !list_fmap_singleton, arithmetic_mean_singleton.
  unfold expected_row. simpl accuracy_of.
  by rewrite count_total_all, count_correct_all.
Qed.

Section Main.

Variable args : Args.
Variable generate_output : nat → string → result string.
Variable extract_and_strip : string → string → result string.
Variable parse_ground_truth : Sample → string → result (list string).
Variable math_equal : string → string → result bool.

Local Abbreviation loop :=
  (generate_loop args generate_output extract_and_strip parse_ground_truth).
Local Abbreviation run :=
  (main args generate_output extract_and_strip parse_ground_truth math_equal).
Local Abbreviation graded := (λ g : Generation, (grade math_equal g).1).

Lemma main_split loaded :
  run loaded
  = match apply_cap (num_test_sample args) loaded with
    | [] => Raise IndexError
    | _ :: _ =>
        w ← loop 0 (apply_cap (num_test_sample args) loaded) initial_world ;
        script_tail args math_equal w
    end.
Proof.
  unfold main. by destruct (apply_cap (num_test_sample args) loaded).
Qed.

(** X12. The script looks at the first sample before it generates
    anything: when nothing is loaded, or when the cap is negative and at
    least as large as the loaded dataset, the capped dataset is empty and
    the script fails with [IndexError]. *)
Theorem empty_dataset_is_fatal loaded :
  loaded = []
  ∨ (num_test_sample args < 0
     ∧ Z.of_nat (length loaded) ≤ - num_test_sample args)%Z →
  apply_cap (num_test_sample args) loaded = []
  ∧ run loaded = Raise IndexError.
Proof.
  intros H.
  assert (Hcap : apply_cap (num_test_sample args) loaded = []).
  { unfold apply_cap, slice_to. destruct H as [->|[Hn Hlen]].
    - repeat case_decide; by rewrite ?take_nil.
    - rewrite decide_True by lia. rewrite decide_False by lia.
      replace (length loaded - Z.to_nat (- num_test_sample args)) with 0 by lia.
      done. }
  split; [done|]. rewrite main_split. by rewrite Hcap.
Qed.

(** Grading and aggregating records that all carry the dataset of the
    run. *)
Lemma metrics_of_graded gens agg_method :
  agg_method = "pass" ∨ agg_method = "majority_vote" →
  Forall (λ g, gen_dataset g = data_name args) gens →
  compute_metrics_fn
    ((λ g, single (gen_dataset g) (gen_pred g) (default false (gen_correct g)))
       <$> (graded <$> gens)) 1 agg_method
  = Ok (one_dataset_metrics (data_name args) (length gens)
          (length (filter (λ g, gen_correct (graded g) = Some true) gens))).
Proof.
  intros Hm Hall. unfold compute_metrics_fn, final_results_of.
  rewrite (for_each_ok _ (λ er,
    {| fr_dataset := dataset er;
       fr_ans := pred <$> head (generation er);
       fr_correct := default false (correct <$> head (generation er)) |})).
  2:{ apply Forall_fmap, Forall_fmap, Forall_forall. intros g _. simpl.
      by rewrite single_decision. }
  unfold mbind, result_bind. cbv beta iota.
  rewrite (metrics_of_one_dataset (data_name args)).
  2:{ apply Forall_fmap, Forall_fmap, Forall_fmap.
      eapply Forall_impl; [exact Hall|]. intros g Hg. simpl.
      by destruct (grade_correct math_equal g) as [b ->]. }
  rewrite !length_fmap. do 2 f_equal.
  rewrite !length_filter_fmap. f_equal. apply list_filter_iff.
  intros g. simpl. destruct (grade_correct math_equal g) as [b ->]. simpl.
  split; congruence.
Qed.

Lemma report_of_graded (w3 : World) gens :
  generations w3 = graded <$> gens →
  Forall (λ g, gen_dataset g = data_name args) gens →
  (eval_results ← for_each eval_result_of (generations w3) ;
   all_results ← for_each
     (λ agg_method,
        metrics ← compute_metrics_fn eval_results 1 agg_method ;
        Ok (agg_method, metrics))
     agg_fn_list ;
   Ok (w3, all_results))
  = Ok (w3,
        [ ("pass",
           one_dataset_metrics (data_name args) (length gens)
             (length (filter (λ g, gen_correct (graded g) = Some true) gens)));
          ("majority_vote",
           one_dataset_metrics (data_name args) (length gens)
             (length (filter (λ g, gen_correct (graded g) = Some true) gens))) ]).
Proof.
  intros Hg Hall. rewrite Hg.
  rewrite (for_each_ok _ (λ g, single (gen_dataset g) (gen_pred g)
                                 (default false (gen_correct g)))).
  2:{ apply Forall_fmap, Forall_forall. intros g _. simpl.
      by destruct (grade_correct math_equal g) as [b ->]. }
  unfold agg_fn_list, for_each, mbind, result_bind. cbv beta iota.
  rewrite !metrics_of_graded by auto. done.
Qed.

(** The script after the generation loop, on records of the run. *)
Lemma script_tail_spec w :
  Forall (λ g, gen_dataset g = data_name args) (generations w) →
  script_tail args math_equal w
  = Ok ({| generations := graded <$> generations w;
           files :=
             save_jsonl (graded <$> generations w)
               (path_join (output_dir args) "eval_results.jsonl")
               (if save_outputs args then
                  save_jsonl (generations w)
                    (path_join (output_dir args) "generations.jsonl") (files w)
                else files w);
           log := log w ++ mjoin ((λ g, (grade math_equal g).2) <$> generations w) |},
        [ ("pass",
           one_dataset_metrics (data_name args) (length (generations w))
             (length (filter (λ g, gen_correct (graded g) = Some true)
                        (generations w))));
          ("majority_vote",
           one_dataset_metrics (data_name args) (length (generations w))
             (length (filter (λ g, gen_correct (graded g) = Some true)
                        (generations w)))) ]).
Proof.
  intros Hall. unfold script_tail.
  rewrite (report_of_graded _ (generations w));
    [|by destruct (save_outputs args)|done].
  by destruct (save_outputs args).
Qed.

Lemma generate_loop_datasets ds w :
  loop 0 ds initial_world = Ok w →
  Forall (λ g, gen_dataset g = data_name args) (generations w).
Proof.
  intros Hrun.
  destruct (generate_loop_added _ _ _ _ _ _ _ _ Hrun) as (added & -> & _ & Hall).
  simpl. eapply Forall_impl; [exact Hall|]. intros g [Hg _].
  by destruct Hg as (_ & _ & _ & _ & _ & _ & _ & ? & _).
Qed.

(** X13. Once the generation loop has returned on a dataset that is not
    empty, nothing in the rest of the script can raise.  The script ends
    with every record graded, [eval_results.jsonl] holding the graded
    records, [generations.jsonl] written exactly when [save_outputs] is
    set, and then holding the records as they were before grading, and
    with one list of metrics for each of the two aggregation methods. *)
Theorem script_succeeds_after_generation loaded w :
  apply_cap (num_test_sample args) loaded ≠ [] →
  loop 0 (apply_cap (num_test_sample args) loaded) initial_world = Ok w →
  ∃ w' results,
    run loaded = Ok (w', results)
    ∧ generations w' = graded <$> generations w
    ∧ Forall flagged (generations w')
    ∧ files w' !! path_join (output_dir args) "eval_results.jsonl"
      = Some (generations w')
    ∧ files w' !! path_join (output_dir args) "generations.jsonl"
      = (if save_outputs args then Some (generations w) else None)
    ∧ Forall (λ g, gen_correct g = None) (generations w)
    ∧ results.*1 = ["pass"; "majority_vote"].
Proof.
  intros Hne Hrun. rewrite main_split.
  destruct (apply_cap (num_test_sample args) loaded) as [|s0 rest] eqn:Hcap;
    [done|].
  rewrite Hrun.
  eexists _, _. split; [apply script_tail_spec; by eapply generate_loop_datasets|].
  assert (Hpaths : path_join (output_dir args) "eval_results.jsonl"
                   ≠ path_join (output_dir args) "generations.jsonl")
    by (intros H; by apply path_join_inj in H).
  assert (Hnone : Forall (λ g, gen_correct g = None) (generations w)).
  { destruct (generate_loop_added _ _ _ _ _ _ _ _ Hrun) as (added & -> & _ & Hall).
    simpl. eapply Forall_impl; [exact Hall|]. intros g [Hg _].
    by destruct Hg as (_ & _ & _ & _ & _ & _ & _ & _ & ?). }
  simpl. split_and!; [done| | | |done..].
  - apply Forall_fmap, Forall_forall. intros g _. simpl.
    destruct (grade_correct math_equal g) as [b ->]. by eexists.
  - unfold save_jsonl. by rewrite lookup_insert_eq.
  - unfold save_jsonl. rewrite lookup_insert_ne by done.
    destruct (save_outputs args); [by rewrite lookup_insert_eq|].
    destruct (generate_loop_checkpoint _ _ _ _ _ _ _ _ Hrun) as [Hother _].
    rewrite Hother; [done|]. unfold checkpoint_path.
    intros H. by apply path_join_inj in H.
Qed.

(** X14. Whenever the script succeeds, both aggregation methods report the
    same metrics, built from the graded records alone: with no record, the
    single row [Average 0]; otherwise one row for the dataset of the run,
    whose total is the number of records and whose correct count is the
    number of records flagged true, followed by an average equal to that
    row's accuracy. *)
Theorem script_reports_one_dataset loaded w' results :
  run loaded = Ok (w', results) →
  results
  = [ ("pass",
       one_dataset_metrics (data_name args) (length (generations w'))
         (length (filter (λ g, gen_correct g = Some true) (generations w'))));
      ("majority_vote",
       one_dataset_metrics (data_name args) (length (generations w'))
         (length (filter (λ g, gen_correct g = Some true) (generations w')))) ].
Proof.
  rewrite main_split.
  destruct (apply_cap (num_test_sample args) loaded) as [|s0 rest] eqn:Hcap;
    [done|].
  destruct (loop 0 (s0 :: rest) initial_world) as [w|] eqn:Hrun; [|done].
  change (Ok w ≫= (λ w0, script_tail args math_equal w0))
    with (script_tail args math_equal w).
  rewrite script_tail_spec by (by eapply generate_loop_datasets).
  intros [= <- <-]. simpl. by rewrite length_fmap, length_filter_fmap.
Qed.

(** X15. When no sample of a dataset that is not empty is kept, the
    script still succeeds: no record is generated, [eval_results.jsonl] is
    written empty, and both methods report the single row [Average 0]. *)
Theorem script_with_every_sample_skipped loaded :
  apply_cap (num_test_sample args) loaded ≠ [] →
  (∀ i s, apply_cap (num_test_sample args) loaded !! i = Some s →
          ¬ kept generate_output i s) →
  ∃ w',
    run loaded = Ok (w', [ ("pass", [Average 0%Qc]);
                           ("majority_vote", [Average 0%Qc]) ])
    ∧ generations w' = []
    ∧ files w' !! path_join (output_dir args) "eval_results.jsonl" = Some [].
Proof.
  intros Hne Hskip. rewrite main_split.
  destruct (apply_cap (num_test_sample args) loaded) as [|s0 rest] eqn:Hcap;
    [done|].
  destruct (generate_loop_none_kept args generate_output extract_and_strip
              parse_ground_truth 0 (s0 :: rest) initial_world)
    as (w & Hrun & Hg & Hf); [done|].
  rewrite Hrun.
  change (Ok w ≫= (λ w0, script_tail args math_equal w0))
    with (script_tail args math_equal w).
  rewrite script_tail_spec by (rewrite Hg; constructor).
  rewrite Hg. eexists. split; [done|]. simpl. split; [done|].
  unfold save_jsonl. by rewrite lookup_insert_eq.
Qed.

End Main.

Lemma empty_dataset_is_fatal_witness :
  ([asked "1+1"; asked "2"] = []
   ∨ (num_test_sample (capped_args (-3)) < 0
      ∧ Z.of_nat (length [asked "1+1"; asked "2"])
        ≤ - num_test_sample (capped_args (-3)))%Z)
  ∧ apply_cap (num_test_sample (capped_args (-3))) [asked "1+1"; asked "2"] = []
  ∧ example_main (-3) [asked "1+1"; asked "2"] = Raise IndexError.
Proof.
  assert (H : [asked "1+1"; asked "2"] = []
   ∨ (num_test_sample (capped_args (-3)) < 0
      ∧ Z.of_nat (length [asked "1+1"; asked "2"])
        ≤ - num_test_sample (capped_args (-3)))%Z)
    by (right; simpl; lia).
  split; [exact H|].
  exact (empty_dataset_is_fatal (capped_args (-3)) echo_model keep_text
           no_parse picky_math_equal [asked "1+1"; asked "2"] H).
Defined.

Lemma script_succeeds_after_generation_witness :
  (apply_cap (num_test_sample (capped_args 0))
     [asked "1+1"; no_question; asked "2"] ≠ []
   ∧ generate_loop (capped_args 0) echo_model keep_text no_parse 0
       (apply_cap (num_test_sample (capped_args 0))
          [asked "1+1"; no_question; asked "2"]) initial_world
     = Ok {| generations := [echoed "1+1"; echoed "2"]; files := ∅;
             log := [SkippedMalformed no_question] |})
  ∧ ∃ w' results,
      example_main 0 [asked "1+1"; no_question; asked "2"] = Ok (w', results)
      ∧ generations w'
        = (λ g, (grade picky_math_equal g).1) <$> [echoed "1+1"; echoed "2"]
      ∧ Forall flagged (generations w')
      ∧ files w' !! path_join "out" "eval_results.jsonl" = Some (generations w')
      ∧ files w' !! path_join "out" "generations.jsonl"
        = Some [echoed "1+1"; echoed "2"]
      ∧ Forall (λ g, gen_correct g = None) [echoed "1+1"; echoed "2"]
      ∧ results.*1 = ["pass"; "majority_vote"].
Proof.
  split; [split; [discriminate|reflexivity]|].
  apply (script_succeeds_after_generation (capped_args 0) echo_model keep_text
           no_parse picky_math_equal [asked "1+1"; no_question; asked "2"]
           {| generations := [echoed "1+1"; echoed "2"]; files := ∅;
              log := [SkippedMalformed no_question] |});
    [discriminate|reflexivity].
Defined.

Lemma script_reports_one_dataset_witness :
  ∃ w' results,
    example_main 0 [asked "1+1"; no_question; asked "2"] = Ok (w', results)
    ∧ results
      = [ ("pass",
           one_dataset_metrics "college_math" (length (generations w'))
             (length (filter (λ g, gen_correct g = Some true) (generations w'))));
          ("majority_vote",
           one_dataset_metrics "college_math" (length (generations w'))
             (length (filter (λ g, gen_correct g = Some true) (generations w')))) ].
Proof.
  destruct (example_main 0 [asked "1+1"; no_question; asked "2"])
    as [[w' results]|e] eqn:Hrun; [|vm_compute in Hrun; discriminate].
  exists w', results. split; [reflexivity|].
  exact (script_reports_one_dataset (capped_args 0) echo_model keep_text
           no_parse picky_math_equal _ _ _ Hrun).
Defined.

(** Of the two records of that run one is graded correct: both methods
    report an accuracy of one half. *)
Example script_reports_one_half :
  ∃ w' a,
    example_main 0 [asked "1+1"; no_question; asked "2"]
    = Ok (w', [ ("pass", [Metric "college_math" 2 1 a; Average a]);
                ("majority_vote", [Metric "college_math" 2 1 a; Average a]) ])
    ∧ a = Q2Qc (1 # 2).
Proof.
  assert (Hrun : generate_loop (capped_args 0) echo_model keep_text no_parse 0
                   [asked "1+1"; no_question; asked "2"] initial_world
                 = Ok {| generations := [echoed "1+1"; echoed "2"]; files := ∅;
                         log := [SkippedMalformed no_question] |})
    by reflexivity.
  eexists _, _. split; [|reflexivity].
  unfold example_main. rewrite main_split.
  replace (apply_cap (num_test_sample (capped_args 0))
             [asked "1+1"; no_question; asked "2"])
    with [asked "1+1"; no_question; asked "2"] by reflexivity.
  cbv iota. rewrite Hrun.
  change (Ok ?w ≫= (λ w0, script_tail ?a ?m w0)) with (script_tail a m w).
  rewrite script_tail_spec by (repeat constructor). reflexivity.
Qed.

Lemma script_with_every_sample_skipped_witness :
  (apply_cap (num_test_sample (capped_args 0)) [no_question; asked "crash"] ≠ []
   ∧ ∀ i s, apply_cap (num_test_sample (capped_args 0))
              [no_question; asked "crash"] !! i = Some s →
            ¬ kept echo_model i s)
  ∧ ∃ w',
      example_main 0 [no_question; asked "crash"]
      = Ok (w', [ ("pass", [Average 0%Qc]); ("majority_vote", [Average 0%Qc]) ])
      ∧ generations w' = []
      ∧ files w' !! path_join "out" "eval_results.jsonl" = Some [].
Proof.
  assert (Hskip : ∀ i s, apply_cap (num_test_sample (capped_args 0))
              [no_question; asked "crash"] !! i = Some s →
            ¬ kept echo_model i s).
  { intros i s Hi (prompt & text & Hp & Hg).
    destruct i as [|[|i]]; simpl in Hi; [| |discriminate Hi].
    - injection Hi as <-. discriminate Hp.
    - injection Hi as <-. vm_compute in Hp. injection Hp as <-.
      discriminate Hg. }
  split; [split; [discriminate|exact Hskip]|].
  apply (script_with_every_sample_skipped (capped_args 0) echo_model keep_text
           no_parse picky_math_equal [no_question; asked "crash"]);
    [discriminate|exact Hskip].
Defined.

(** ** The report rows *)

Lemma od_get_set key key' v d :
  od_get key' (od_set key v d)
  = if decide (key = key') then Some v else od_get key' d.
Proof.
  induction d as [|[k x] rest IH]; simpl.
  - repeat case_decide; congruence.
  - repeat (case_decide; simpl); subst; rewrite ?IH;
      repeat case_decide; congruence.
Qed.

Lemma od_get_update_notin key d (items : list (string * cell)) :
  key ∉ items.*1 → od_get key (od_update d items) = od_get key d.
Proof.
  unfold od_update. revert d.
  induction items as [|[k v] items IH]; intros d H; csimpl in *; [done|].
  rewrite not_elem_of_cons in H. destruct H as [Hk H].
  rewrite IH by done. rewrite od_get_set. by rewrite decide_False.
Qed.

Lemma od_get_update_in key v d (items : list (string * cell)) :
  NoDup items.*1 → (key, v) ∈ items →
  od_get key (od_update d items) = Some v.
Proof.
  revert d. induction items as [|[k x] items IH]; intros d Hnd Hin; csimpl in *.
  - by apply elem_of_nil in Hin.
  - apply NoDup_cons in Hnd as [Hk Hnd].
    apply elem_of_cons in Hin as [[= -> ->]|Hin].
    + change (od_get k (od_update (od_set k x d) items) = Some x).
      rewrite od_get_update_notin by done. rewrite od_get_set.
      by rewrite decide_True.
    + by apply (IH (od_set k x d)).
Qed.

Lemma od_set_fresh key v (d : list (string * cell)) :
  key ∉ d.*1 → od_set key v d = d ++ [(key, v)].
Proof.
  induction d as [|[k x] d IH]; csimpl; intros H; [done|].
  rewrite not_elem_of_cons in H. destruct H as [Hk H].
  rewrite decide_False by done. by rewrite IH.
Qed.

Lemma od_update_fresh (d items : list (string * cell)) :
  NoDup items.*1 → (∀ key, key ∈ items.*1 → key ∉ d.*1) →
  od_update d items = d ++ items.
Proof.
  unfold od_update. revert d.
  induction items as [|[k v] items IH]; intros d Hnd Hd; csimpl in *.
  - by rewrite app_nil_r.
  - apply NoDup_cons in Hnd as [Hk Hnd].
    rewrite od_set_fresh by (apply Hd; left).
    rewrite IH; [by rewrite <- app_assoc|done|].
    intros key Hkey. rewrite fmap_app, elem_of_app. intros [H|H].
    + by apply (Hd key); [right|].
    + csimpl in H. apply list_elem_of_singleton in H. by subst.
Qed.

Lemma slice_to_drop_last {A} (l : list A) x : slice_to (-1) (l ++ [x]) = l.
Proof.
  unfold slice_to. rewrite decide_False by lia.
  rewrite length_app. simpl.
  replace (length l + 1 - Z.to_nat (- -1)) with (length l) by lia.
  by rewrite take_app_length.
Qed.

(** X16. The report row of a method can always be built from the output
    of [compute_metrics_fn]: it holds the average under the key
    ["Average"], the accuracy of every dataset under the dataset's name,
    except that a dataset named ["Average"] is replaced by the average, and
    [1] under ["k"] unless a dataset is named ["k"]. *)
Theorem report_row_is_built er k agg_method out :
  compute_metrics_fn er k agg_method = Ok out →
  ∃ row avg,
    report_of out = Ok row
    ∧ last out = Some (Average avg)
    ∧ od_get "Average" row = Some (FloatCell avg)
    ∧ (∀ d t c a, Metric d t c a ∈ out → d ≠ "Average" →
         od_get d row = Some (FloatCell a))
    ∧ (Forall (λ m, dataset_of m ≠ Some "k") out →
       od_get "k" row = Some (IntCell 1)).
Proof.
  intros H. apply compute_metrics_fn_inv in H as (rs & _ & H).
  rewrite metrics_of_results_spec in H. inversion H; subst; clear H.
  set (ds := first_seen (fr_dataset <$> rs)).
  set (avg := arithmetic_mean (accuracy_of <$> (expected_row rs <$> ds))).
  set (entries := (λ d, (d, FloatCell (accuracy_of (expected_row rs d)))) <$> ds).
  assert (Hkeys : entries.*1 = ds).
  { unfold entries. rewrite <- list_fmap_compose. apply list_fmap_id. }
  assert (Hnd : NoDup entries.*1) by (rewrite Hkeys; apply NoDup_first_seen).
  assert (Hrow : report_of ((expected_row rs <$> ds) ++ [Average avg])
    = Ok (od_set "Average" (FloatCell avg)
            (od_update [("k", IntCell 1)] entries))).
  { unfold report_of. rewrite slice_to_drop_last, last_snoc.
    rewrite (for_each_ok _ (λ m, (default "" (dataset_of m),
                                   FloatCell (accuracy_of m)))).
    2:{ apply Forall_fmap, Forall_forall. by intros. }
    unfold mbind, result_bind. cbv beta iota. simpl from_option. cbv beta iota.
    rewrite <- list_fmap_compose.
    change ((λ m, (default "" (dataset_of m), FloatCell (accuracy_of m)))
            ∘ expected_row rs <$> ds) with entries.
    rewrite (od_update_fresh [] entries)
      by (done || (intros ? _; apply not_elem_of_nil)).
    done. }
  exists (od_set "Average" (FloatCell avg) (od_update [("k", IntCell 1)] entries)), avg.
  split_and!.
  - done.
  - apply last_snoc.
  - rewrite od_get_set. by rewrite decide_True.
  - intros d t c a Hin Hd. rewrite od_get_set, decide_False by done.
    apply elem_of_app in Hin as [Hin|Hin].
    2:{ apply list_elem_of_singleton in Hin. discriminate. }
    apply list_elem_of_fmap in Hin as (d0 & E & Hd0).
    unfold expected_row in E. injection E as -> _ _ ->.
    apply od_get_update_in; [done|]. unfold entries.
    apply list_elem_of_fmap. by exists d0.
  - intros Hk. rewrite od_get_set, decide_False by done.
    rewrite od_get_update_notin; [done|]. rewrite Hkeys. intros Hin.
    apply Forall_app in Hk as [Hk _]. rewrite Forall_fmap, Forall_forall in Hk.
    by apply (Hk "k" Hin).
Qed.

Lemma report_row_is_built_witness :
  compute_metrics_fn two_datasets 1 "pass"
  = Ok [ Metric "B" 3 0 (Q2Qc (0 # 3)); Metric "A" 1 1 (Q2Qc (1 # 1));
         Average (arithmetic_mean [Q2Qc (0 # 3); Q2Qc (1 # 1)]) ]
  ∧ ∃ row avg,
      report_of [ Metric "B" 3 0 (Q2Qc (0 # 3)); Metric "A" 1 1 (Q2Qc (1 # 1));
                  Average (arithmetic_mean [Q2Qc (0 # 3); Q2Qc (1 # 1)]) ]
      = Ok row
      ∧ last [ Metric "B" 3 0 (Q2Qc (0 # 3)); Metric "A" 1 1 (Q2Qc (1 # 1));
               Average (arithmetic_mean [Q2Qc (0 # 3); Q2Qc (1 # 1)]) ]
        = Some (Average avg)
      ∧ od_get "Average" row = Some (FloatCell avg).
Proof.
  split; [vm_compute; reflexivity|].
  destruct (report_row_is_built two_datasets 1 "pass"
    [ Metric "B" 3 0 (Q2Qc (0 # 3)); Metric "A" 1 1 (Q2Qc (1 # 1));
      Average (arithmetic_mean [Q2Qc (0 # 3); Q2Qc (1 # 1)]) ])
    as (row & avg & H1 & H2 & H3 & _); [vm_compute; reflexivity|].
  by exists row, avg.
Defined.

(** A dataset called ["Average"] loses its own accuracy in the report. *)
Example dataset_named_Average_is_replaced :
  ∃ row a,
    (out ← compute_metrics_fn
             [single "Average" "1" true; single "B" "2" false] 1 "pass" ;
     report_of out) = Ok row
    ∧ od_get "Average" row = Some (FloatCell a)
    ∧ a = Q2Qc (1 # 2).
Proof.
  eexists _, _. split; [vm_compute; reflexivity|].
  split; [reflexivity|]. by apply Qc_is_canon.
Qed.

(** ** The generation backend *)

Section BackendFailures.

Variable args : Args.
Variable Tokens : Type.
Variable tokenizer : string → result Tokens.
Variable model_generate : nat → Tokens → GenKwargs → result (list Tokens).
Variable decode : Tokens → result string.
Variable temperature top_p : Qc.
Variable extract_and_strip : string → string → result string.
Variable parse_ground_truth : Sample → string → result (list string).

Local Abbreviation backend :=
  (generate_output_of Tokens tokenizer model_generate decode temperature top_p).

(** X17. Every failure inside [generate_output] is a generation failure
    for the loop: when the tokenizer raises, when the model raises, when
    the model returns an empty batch (its first output is then missing),
    or when decoding raises, the sample is skipped with one line in the
    log, and the generation list and the files stay as they were. *)
Theorem backend_failure_skips_sample idx s w prompt e :
  find_prompt s = Some prompt →
  tokenizer prompt = Raise e
  ∨ (∃ inputs,
       tokenizer prompt = Ok inputs
       ∧ (model_generate idx inputs (gen_kwargs temperature top_p) = Raise e
          ∨ (model_generate idx inputs (gen_kwargs temperature top_p) = Ok []
             ∧ e = IndexError)
          ∨ ∃ first_output others,
              model_generate idx inputs (gen_kwargs temperature top_p)
              = Ok (first_output :: others)
              ∧ decode first_output = Raise e)) →
  generate_step args backend extract_and_strip parse_ground_truth idx s w
  = Ok {| generations := generations w; files := files w;
          log := log w ++ [GenerationFailed prompt e] |}.
Proof.
  intros Hp H. unfold generate_step. rewrite Hp.
  assert (backend idx prompt = Raise e) as ->; [|done].
  unfold generate_output_of, mbind, result_bind.
  destruct H as [Ht|(inputs & Ht & H)]; rewrite Ht; [done|].
  destruct H as [Hm|[[Hm ->]|(o & os & Hm & Hd)]]; rewrite Hm; done.
Qed.

End BackendFailures.

Lemma backend_failure_skips_sample_witness :
  (find_prompt (asked "1+1") = Some "1+1"
   ∧ ((λ p, Ok p) "1+1" = Raise IndexError
      ∨ ∃ inputs,
          (λ p, Ok p) "1+1" = Ok inputs
          ∧ (empty_batch 0 inputs (gen_kwargs 0%Qc 1%Qc) = Raise IndexError
             ∨ (empty_batch 0 inputs (gen_kwargs 0%Qc 1%Qc) = Ok []
                ∧ IndexError = IndexError)
             ∨ ∃ first_output others,
                 empty_batch 0 inputs (gen_kwargs 0%Qc 1%Qc)
                 = Ok (first_output :: others)
                 ∧ (λ o, Ok o) first_output = Raise IndexError)))
  ∧ generate_step example_args
      (generate_output_of string (λ p, Ok p) empty_batch (λ o, Ok o) 0%Qc 1%Qc)
      keep_text no_parse 0 (asked "1+1") initial_world
    = Ok {| generations := generations initial_world;
            files := files initial_world;
            log := log initial_world ++ [GenerationFailed "1+1" IndexError] |}.
Proof.
  assert (H : (λ p, Ok p) "1+1" = Raise IndexError
      ∨ ∃ inputs,
          (λ p : string, Ok p) "1+1" = Ok inputs
          ∧ (empty_batch 0 inputs (gen_kwargs 0%Qc 1%Qc) = Raise IndexError
             ∨ (empty_batch 0 inputs (gen_kwargs 0%Qc 1%Qc) = Ok []
                ∧ IndexError = IndexError)
             ∨ ∃ first_output others,
                 empty_batch 0 inputs (gen_kwargs 0%Qc 1%Qc)
                 = Ok (first_output :: others)
                 ∧ (λ o : string, Ok o) first_output = Raise IndexError)).
  { right. exists "1+1". split; [reflexivity|]. right. left. by split. }
  split; [split; [reflexivity|exact H]|].
  by apply (backend_failure_skips_sample example_args string (λ p, Ok p)
              empty_batch (λ o, Ok o) 0%Qc 1%Qc keep_text no_parse 0
              (asked "1+1") initial_world "1+1" IndexError).
Defined.

(** ** The order of the samples *)

Lemma for_each_value {A B} (f : A → result B) (d : B) l ys :
  for_each f l = Ok ys →
  Forall (λ x, f x = Ok (value_or d (f x))) l ∧ ys = value_or d ∘ f <$> l.
Proof.
  revert ys. induction l as [|x l IH]; simpl; intros ys H.
  - by inversion H.
  - destruct (f x) as [y|] eqn:Hx; simpl in H; [|done].
    destruct (for_each f l) as [ys'|]; simpl in H; [|done].
    inversion H; subst. destruct (IH ys' eq_refl) as [Hall ->].
    split; [constructor; [by rewrite ?Hx|done]|].
    csimpl. unfold compose at 1. by rewrite ?Hx.
Qed.

Lemma count_total_Permutation d rs rs' :
  rs ≡ₚ rs' → count_total d rs = count_total d rs'.
Proof. intros H. unfold count_total. by rewrite H. Qed.

Lemma count_correct_Permutation d rs rs' :
  rs ≡ₚ rs' → count_correct d rs = count_correct d rs'.
Proof. intros H. unfold count_correct. by rewrite H. Qed.

Lemma first_seen_Permutation (l l' : list string) :
  l ≡ₚ l' → first_seen l ≡ₚ first_seen l'.
Proof.
  intros H. apply NoDup_Permutation; [apply NoDup_first_seen..|].
  intros x. by rewrite !elem_of_first_seen, H.
Qed.

(** X18. The order of the samples matters only for the order of the
    per-dataset rows: on a permutation of an input on which
    [compute_metrics_fn] returns, it returns the same per-dataset rows,
    possibly in another order, followed by its average row.  (Nothing is
    said of the two averages: the source sums floats in row order.) *)
Theorem sample_order_only_orders_rows er er' k agg_method out :
  er ≡ₚ er' →
  compute_metrics_fn er k agg_method = Ok out →
  ∃ rows rows' avg avg',
    out = rows ++ [Average avg]
    ∧ compute_metrics_fn er' k agg_method = Ok (rows' ++ [Average avg'])
    ∧ Forall is_metric rows
    ∧ rows ≡ₚ rows'.
Proof.
  intros Hp H. apply compute_metrics_fn_inv in H as (rs & Hrs & H).
  rewrite metrics_of_results_spec in H. inversion H; subst; clear H.
  set (d0 := {| fr_dataset := ""; fr_ans := None; fr_correct := false |}).
  destruct (for_each_value _ d0 _ _ Hrs) as [Hall ->].
  set (g := value_or d0 ∘ final_result_of k agg_method) in *.
  assert (Hrs' : final_results_of er' k agg_method = Ok (g <$> er')).
  { unfold final_results_of. apply for_each_ok. by rewrite <- Hp. }
  assert (Hperm : g <$> er ≡ₚ g <$> er') by (by apply fmap_Permutation).
  assert (Hrow : ∀ d, expected_row (g <$> er) d = expected_row (g <$> er') d).
  { intros d. unfold expected_row.
    by rewrite (count_total_Permutation _ _ _ Hperm),
               (count_correct_Permutation _ _ _ Hperm). }
  assert (Hrows : expected_row (g <$> er) <$> first_seen (fr_dataset <$> (g <$> er))
                  ≡ₚ expected_row (g <$> er') <$> first_seen (fr_dataset <$> (g <$> er'))).
  { rewrite (list_fmap_ext _ (expected_row (g <$> er')) _ (λ _ d _, Hrow d)).
    apply fmap_Permutation, first_seen_Permutation. by apply fmap_Permutation. }
  eexists _, _, _, _. split; [done|].
  split; [|split; [apply expected_rows_metric|exact Hrows]].
  by rewrite (compute_metrics_fn_unfold _ _ _ _ Hrs'), metrics_of_results_spec.
Qed.

Lemma sample_order_only_orders_rows_witness :
  (two_datasets ≡ₚ reverse two_datasets
   ∧ compute_metrics_fn two_datasets 1 "pass"
     = Ok [ Metric "B" 3 0 (Q2Qc (0 # 3)); Metric "A" 1 1 (Q2Qc (1 # 1));
            Average (arithmetic_mean [Q2Qc (0 # 3); Q2Qc (1 # 1)]) ])
  ∧ ∃ rows rows' avg avg',
      [ Metric "B" 3 0 (Q2Qc (0 # 3)); Metric "A" 1 1 (Q2Qc (1 # 1));
        Average (arithmetic_mean [Q2Qc (0 # 3); Q2Qc (1 # 1)]) ]
      = rows ++ [Average avg]
      ∧ compute_metrics_fn (reverse two_datasets) 1 "pass"
        = Ok (rows' ++ [Average avg'])
      ∧ Forall is_metric rows
      ∧ rows ≡ₚ rows'.
Proof.
  assert (Hp : two_datasets ≡ₚ reverse two_datasets)
    by (symmetry; apply reverse_Permutation).
  split; [split; [exact Hp|vm_compute; reflexivity]|].
  apply (sample_order_only_orders_rows two_datasets (reverse two_datasets)
           1 "pass"); [exact Hp|vm_compute; reflexivity].
Defined.
